(** * RundownWatcher (inews-ftp-gateway): a shallow embedding

    This file models [RundownWatcher] of the iNews FTP gateway: its caches,
    [ResyncRundown], the per-queue poll [checkINewsRundownById] with
    [processUpdatedRundown], the cycle over all queues [checkINewsRundowns]
    and the status reported by [watch].

    The collaborators that the watcher only calls (the iNews client behind
    [RundownManager], [ResolveRundownIntoPlaylist], [DiffPlaylist],
    [AssignRanksToSegments] and the Core handler) are fields of an
    environment record [Env]; an awaited call that rejects is [None].
    JS [Map]s and [Set]s are association lists that keep insertion order,
    as JS does. *)

From Stdlib Require Import List String Ascii Bool ZArith QArith Sorting.Sorted.
Import ListNotations.
Open Scope string_scope.
Open Scope list_scope.

(** ** JS [Map] and [Set] over string keys *)

Module JSMap.

Definition t (V : Type) := list (string * V).

Fixpoint get {V} (k : string) (m : t V) : option V :=
  match m with
  | [] => None
  | (k', v) :: rest => if String.eqb k k' then Some v else get k rest
  end.

Definition has {V} (k : string) (m : t V) : bool :=
  match get k m with Some _ => true | None => false end.

(** [Map.prototype.set]: an existing key keeps its position, a new key is
    appended. *)
Fixpoint set {V} (k : string) (v : V) (m : t V) : t V :=
  match m with
  | [] => [(k, v)]
  | (k', v') :: rest =>
      if String.eqb k k' then (k, v) :: rest else (k', v') :: set k v rest
  end.

Definition delete {V} (k : string) (m : t V) : t V :=
  filter (fun kv => negb (String.eqb k (fst kv))) m.

End JSMap.

Module JSSet.

Definition t := list string.

Definition has (x : string) (s : t) : bool := existsb (String.eqb x) s.

Definition add (x : string) (s : t) : t := if has x s then s else s ++ [x].

Definition delete (x : string) (s : t) : t :=
  filter (fun y => negb (String.eqb x y)) s.

End JSSet.

(** [filter] followed by [map] on the defined results. *)
Fixpoint filter_some {A} (l : list (option A)) : list A :=
  match l with
  | [] => []
  | Some x :: rest => x :: filter_some rest
  | None :: rest => filter_some rest
  end.

(** ** Data model *)

(** The opaque story payload; the watcher only reads [meta.float]. *)
Record INewsStory := mkINewsStory {
  story_body : string;
  story_meta_float : bool
}.

(** [ReducedSegment = Pick<ISegment, externalId | modified | rank | name | locator>] *)
Record ReducedSegment := mkReducedSegment {
  rs_externalId : string;
  rs_modified : Z;
  rs_rank : Q;
  rs_name : string;
  rs_locator : string
}.

(** [UnrankedSegment = Omit<ISegment, rank | float>] *)
Record UnrankedSegment := mkUnrankedSegment {
  us_externalId : string;
  us_rundownId : string;
  us_name : string;
  us_modified : Z;
  us_locator : string;
  us_iNewsStory : INewsStory
}.

(** [ReducedRundown]: what [downloadRundown] returns for a queue. *)
Record ReducedRundown := mkReducedRundown {
  rr_externalId : string;
  rr_name : string;
  rr_gatewayVersion : string;
  rr_segments : list ReducedSegment
}.

(** [new RundownSegment(rundownId, iNewsStory, modified, locator,
    externalId, rank, name)] *)
Record RundownSegment := mkRundownSegment {
  sg_rundownId : string;
  sg_iNewsStory : INewsStory;
  sg_modified : Z;
  sg_locator : string;
  sg_externalId : string;
  sg_rank : Q;
  sg_name : string
}.

(** One entry of a [ResolvedPlaylist]. *)
Record ResolvedRundown := mkResolvedRundown {
  pr_rundownId : string;
  pr_segments : list string;
  pr_backTime : option string
}.

Definition ResolvedPlaylist := list ResolvedRundown.

(** [new INewsRundown(externalId, name, gatewayVersion, segments, backTime)] *)
Record INewsRundown := mkINewsRundown {
  ir_externalId : string;
  ir_name : string;
  ir_gatewayVersion : string;
  ir_segments : list RundownSegment;
  ir_backTime : option string
}.

(** The changes of [DiffPlaylist], with the fields the watcher reads. *)
Inductive PlaylistChange :=
| PlaylistChangeRundownCreated (rundownExternalId : string)
| PlaylistChangeRundownUpdated (rundownExternalId : string)
| PlaylistChangeRundownDeleted (rundownExternalId : string)
| PlaylistChangeSegmentCreated (rundownExternalId segmentExternalId : string)
| PlaylistChangeSegmentChanged (rundownExternalId segmentExternalId : string)
| PlaylistChangeSegmentMoved (rundownExternalId segmentExternalId : string)
| PlaylistChangeSegmentDeleted (rundownExternalId segmentExternalId : string).

(** [DiffPlaylist] returns [{ changes, segmentChanges }]; the watcher reads
    [changes] and hands both to [AssignRanksToSegments]. *)
Record DiffResult := mkDiffResult {
  changes : list PlaylistChange;
  segmentChanges : list PlaylistChange
}.

(** One element of the result of [AssignRanksToSegments]. *)
Record RankResult := mkRankResult {
  rk_rundownId : string;
  rk_assignedRanks : JSMap.t Q;
  rk_recalculatedAsIntegers : bool
}.

Record SegmentRankingsInner := mkSegmentRankingsInner { sri_rank : Q }.

Definition SegmentRankings := JSMap.t (JSMap.t SegmentRankingsInner).

(** [MutatedSegment], the payload of an [IngestSegment]. *)
Record MutatedSegment := mkMutatedSegment {
  ms_modified : Z;
  ms_locator : string;
  ms_rundownId : string;
  ms_iNewsStory : INewsStory;
  ms_float : bool
}.

Record IngestSegment := mkIngestSegment {
  is_externalId : string;
  is_name : string;
  is_rank : Q;
  is_payload : MutatedSegment
}.

Record IngestRundown := mkIngestRundown {
  ig_externalId : string;
  ig_name : string;
  ig_segments : list IngestSegment;
  ig_playlistExternalId : string;
  ig_backTime : option string
}.

(** The events of the watcher's event stream that carry rundown data. *)
Inductive Event :=
| rundown_delete (rundownId : string)
| rundown_create (rundownId : string) (rundown : IngestRundown)
| rundown_update (rundownId : string) (rundown : IngestRundown)
| segment_delete (rundownId segmentId : string)
| segment_create (rundownId segmentId : string) (segment : IngestSegment)
| segment_update (rundownId segmentId : string) (segment : IngestSegment)
| segment_ranks_update (rundownId : string) (newRanks : JSMap.t Q).

Inductive StatusCode := GOOD | WARNING_MINOR | WARNING_MAJOR.

(** The private and public caches of a [RundownWatcher]. *)
Record Watcher := mkWatcher {
  previousRanks : SegmentRankings;
  lastForcedRankRecalculation : JSMap.t Z;
  cachedINewsData : JSMap.t UnrankedSegment;
  cachedPlaylistAssignments : JSMap.t ResolvedPlaylist;
  cachedAssignedRundowns : JSMap.t (list INewsRundown);
  skipCacheForRundown : JSSet.t;
  playlists : JSMap.t (list string);
  rundowns : JSMap.t (list string);
  segments : JSMap.t ReducedSegment
}.

(** Constructor arguments and collaborators of the watcher. *)
Record Env := mkEnv {
  gatewayVersion : string;
  iNewsQueue : list string;
  handler_isConnected : bool;
  date_now : Z;
  downloadRundown : string -> option ReducedRundown;
  fetchINewsStoriesById : string -> list string -> option (JSMap.t UnrankedSegment);
  ResolveRundownIntoPlaylist : string -> list UnrankedSegment -> ResolvedPlaylist;
  GetSegmentsCacheById : string -> list string -> option (JSMap.t RundownSegment);
  DiffPlaylist : list INewsRundown -> list INewsRundown -> DiffResult;
  AssignRanksToSegments :
    ResolvedPlaylist -> list PlaylistChange -> list PlaylistChange ->
    SegmentRankings -> JSMap.t Z -> list RankResult
}.

(** The result of polling: final caches, emitted events, whether the
    promise resolved, and the calls made to [fetchINewsStoriesById] and to
    [GetSegmentsCacheById]. *)
Record PollOutcome := mkPollOutcome {
  po_state : Watcher;
  po_events : list Event;
  po_ok : bool;
  po_fetches : list (string * list string);
  po_cacheRequests : list (string * list string)
}.

(** ** [ResyncRundown] *)

Definition is_digit (c : Ascii.ascii) : bool :=
  let n := Ascii.nat_of_ascii c in Nat.leb 48 n && Nat.leb n 57.

(** Scans the reversed characters: at least one digit, then ['_']. *)
Fixpoint strip_digits_underscore (rl : list Ascii.ascii) (seen_digit : bool)
  : option (list Ascii.ascii) :=
  match rl with
  | [] => None
  | c :: rest =>
      if is_digit c then strip_digits_underscore rest true
      else if Ascii.eqb c "_"%char && seen_digit then Some rest else None
  end.

(** [rundownExternalId.replace(/_\d+$/, '')] *)
Definition replace_rundown_suffix (rundownExternalId : string) : string :=
  match strip_digits_underscore (rev (list_ascii_of_string rundownExternalId)) false with
  | Some rest => string_of_list_ascii (rev rest)
  | None => rundownExternalId
  end.

Definition ResyncRundown (rundownExternalId : string) (st : Watcher) : Watcher :=
  let playlistExternalId := replace_rundown_suffix rundownExternalId in
  match JSMap.get playlistExternalId (playlists st),
        JSMap.get rundownExternalId (rundowns st) with
  | Some playlist, Some rundown =>
      (* Delete cached data for this rundown *)
      let '(segs, inews) :=
        fold_left (fun '(segs, inews) segmentId =>
                     (JSMap.delete segmentId segs, JSMap.delete segmentId inews))
                  rundown (segments st, cachedINewsData st) in
      let assignments :=
        match JSMap.get playlistExternalId (cachedPlaylistAssignments st) with
        | Some cachedPlaylist =>
            JSMap.set playlistExternalId
              (filter (fun p => negb (String.eqb (pr_rundownId p) rundownExternalId))
                      cachedPlaylist)
              (cachedPlaylistAssignments st)
        | None => cachedPlaylistAssignments st
        end in
      {| previousRanks := previousRanks st;
         lastForcedRankRecalculation :=
           JSMap.delete rundownExternalId (lastForcedRankRecalculation st);
         cachedINewsData := inews;
         cachedPlaylistAssignments := assignments;
         cachedAssignedRundowns := cachedAssignedRundowns st;
         skipCacheForRundown := JSSet.add rundownExternalId (skipCacheForRundown st);
         playlists :=
           JSMap.set playlistExternalId
             (filter (fun r => negb (String.eqb r rundownExternalId)) playlist)
             (playlists st);
         rundowns := JSMap.delete rundownExternalId (rundowns st);
         segments := segs |}
  | _, _ => st
  end.

(** ** [processUpdatedRundown] *)

(** The set [uncachedINewsData]: ids missing from [cachedINewsData]; when
    the playlist is cached, also ids missing from [segments] or whose
    locator differs from the one in [segments]. *)
Definition uncachedINewsData (st : Watcher) (playlistId : string)
  (playlist : ReducedRundown) : JSSet.t :=
  let u0 :=
    fold_left (fun u s =>
                 if JSMap.has (rs_externalId s) (cachedINewsData st) then u
                 else JSSet.add (rs_externalId s) u)
              (rr_segments playlist) [] in
  match JSMap.get playlistId (playlists st) with
  | Some _ =>
      fold_left (fun u segment =>
                   match JSMap.get (rs_externalId segment) (segments st) with
                   | None => JSSet.add (rs_externalId segment) u
                   | Some cachedSegment =>
                       if String.eqb (rs_locator cachedSegment) (rs_locator segment)
                       then u else JSSet.add (rs_externalId segment) u
                   end)
                (rr_segments playlist) u0
  | None => u0
  end.

(** [for (let [k, v] of entries) map.set(k, v)] *)
Definition storeEntries {V} (entries : JSMap.t V) (m : JSMap.t V) : JSMap.t V :=
  fold_left (fun acc kv => JSMap.set (fst kv) (snd kv) acc) entries m.

Definition segmentsToResolve (inewsCache : JSMap.t UnrankedSegment)
  (playlist : ReducedRundown) : list UnrankedSegment :=
  filter_some (map (fun s => JSMap.get (rs_externalId s) inewsCache) (rr_segments playlist)).

(** An empty resolution becomes the single rundown [`${playlistId}_1`]. *)
Definition withDefaultRundown (playlistId : string) (a : ResolvedPlaylist)
  : ResolvedPlaylist :=
  match a with
  | [] => [{| pr_rundownId := playlistId ++ "_1"; pr_segments := [];
              pr_backTime := None |}]%string
  | _ => a
  end.

(** The loop over [playlistAssignments] that consumes [skipCacheForRundown]
    and issues [GetSegmentsCacheById] for the stale segments of the other
    rundowns. *)
Fixpoint segmentCacheRequests (uncached : JSSet.t) (skip : JSSet.t)
  (a : ResolvedPlaylist) : JSSet.t * list (string * list string) :=
  match a with
  | [] => (skip, [])
  | rundown :: rest =>
      if JSSet.has (pr_rundownId rundown) skip then
        segmentCacheRequests uncached (JSSet.delete (pr_rundownId rundown) skip) rest
      else
        let '(skip', reqs) := segmentCacheRequests uncached skip rest in
        (skip', (pr_rundownId rundown,
                 filter (fun segmentId => JSSet.has segmentId uncached)
                        (pr_segments rundown)) :: reqs)
  end.

(** [Promise.all]: rejects when one of the promises rejects. *)
Fixpoint all_some {A} (l : list (option A)) : option (list A) :=
  match l with
  | [] => Some []
  | Some x :: rest => option_map (cons x) (all_some rest)
  | None :: _ => None
  end.

Definition assignedRundownsOf (env : Env) (inewsCache : JSMap.t UnrankedSegment)
  (a : ResolvedPlaylist) : list INewsRundown :=
  map (fun playlistRundown =>
         {| ir_externalId := pr_rundownId playlistRundown;
            ir_name := pr_rundownId playlistRundown;
            ir_gatewayVersion := gatewayVersion env;
            ir_segments :=
              filter_some
                (map (fun segmentId =>
                        option_map
                          (fun iNewsData =>
                             mkRundownSegment (pr_rundownId playlistRundown)
                               (us_iNewsStory iNewsData) (us_modified iNewsData)
                               (us_locator iNewsData) segmentId 0 (us_name iNewsData))
                          (JSMap.get segmentId inewsCache))
                     (pr_segments playlistRundown));
            ir_backTime := pr_backTime playlistRundown |})
      a.

Definition updatePreviousRanks (rundownId : string) (ranks : JSMap.t Q)
  (previous : SegmentRankings) : SegmentRankings :=
  JSMap.set rundownId
    (fold_left (fun m kv => JSMap.set (fst kv) (mkSegmentRankingsInner (snd kv)) m)
               ranks [])
    previous.

(** The loop over [segmentRanks]: returns
    [(lastForcedRankRecalculation, assignedRanks, previousRanks)]. *)
Definition applyRankResults (now : Z) (segmentRanks : list RankResult)
  (init : JSMap.t Z * JSMap.t Q * SegmentRankings)
  : JSMap.t Z * JSMap.t Q * SegmentRankings :=
  fold_left (fun '(lf, assigned, prev) rundown =>
               (if rk_recalculatedAsIntegers rundown
                then JSMap.set (rk_rundownId rundown) now lf else lf,
                storeEntries (rk_assignedRanks rundown) assigned,
                updatePreviousRanks (rk_rundownId rundown) (rk_assignedRanks rundown) prev))
            segmentRanks init.

(** *** Event emission (the second half of [processUpdatedRundown]) *)

Definition inewsToIngestSegment (rundownId segmentId : string)
  (inews : UnrankedSegment) (rank : Q) : IngestSegment :=
  {| is_externalId := segmentId;
     is_name := us_name inews;
     is_rank := rank;
     is_payload :=
       {| ms_modified := us_modified inews;
          ms_locator := us_locator inews;
          ms_rundownId := rundownId;
          ms_iNewsStory := us_iNewsStory inews;
          ms_float := story_meta_float (us_iNewsStory inews) |} |}.

(** A segment without iNews data or without a rank is dropped. *)
Definition playlistRundownToIngestRundown (playlistId rundownId : string)
  (segs : list string) (inewsCache : JSMap.t UnrankedSegment)
  (ranks : JSMap.t Q) (backTime : option string) : IngestRundown :=
  {| ig_externalId := rundownId;
     ig_name := playlistId;
     ig_segments :=
       filter_some
         (map (fun segmentId =>
                 match JSMap.get segmentId inewsCache, JSMap.get segmentId ranks with
                 | Some inews, Some rank =>
                     Some (inewsToIngestSegment rundownId segmentId inews rank)
                 | _, _ => None
                 end) segs);
     ig_playlistExternalId := playlistId;
     ig_backTime := backTime |}.

Definition deletedRundownsOf (cs : list PlaylistChange) : list string :=
  filter_some (map (fun c => match c with
                             | PlaylistChangeRundownDeleted r => Some r
                             | _ => None end) cs).

Definition createdRundownsOf (cs : list PlaylistChange) : list string :=
  filter_some (map (fun c => match c with
                             | PlaylistChangeRundownCreated r => Some r
                             | _ => None end) cs).

Definition updatedRundownsOf (cs : list PlaylistChange) : list string :=
  filter_some (map (fun c => match c with
                             | PlaylistChangeRundownUpdated r => Some r
                             | _ => None end) cs).

Definition changedSegmentsOf (cs : list PlaylistChange) : list (string * string) :=
  filter_some (map (fun c => match c with
                             | PlaylistChangeSegmentChanged r s => Some (r, s)
                             | _ => None end) cs).

Definition deletedSegmentsOf (cs : list PlaylistChange) : list (string * string) :=
  filter_some (map (fun c => match c with
                             | PlaylistChangeSegmentDeleted r s => Some (r, s)
                             | _ => None end) cs).

Definition createdSegmentsOf (cs : list PlaylistChange) : list (string * string) :=
  filter_some (map (fun c => match c with
                             | PlaylistChangeSegmentCreated r s => Some (r, s)
                             | _ => None end) cs).

Definition movedSegmentsOf (cs : list PlaylistChange) : list (string * string) :=
  filter_some (map (fun c => match c with
                             | PlaylistChangeSegmentMoved r s => Some (r, s)
                             | _ => None end) cs).

(** The four segment change lists that the emission loops filter, as
    [(rundownExternalId, segmentExternalId)] pairs. *)
Record Pending := mkPending {
  pd_changed : list (string * string);
  pd_deleted : list (string * string);
  pd_created : list (string * string);
  pd_moved : list (string * string)
}.

(** The lists [playlistChangedSegments], [playlistDeletedSegment],
    [playlistCreatedSegments] and [playlistMovedSegments] before filtering. *)
Definition pending0 (cs : list PlaylistChange) : Pending :=
  {| pd_changed := changedSegmentsOf cs;
     pd_deleted := deletedSegmentsOf cs;
     pd_created := createdSegmentsOf cs;
     pd_moved := movedSegmentsOf cs |}.

Definition other_rundown (rundownId : string) (c : string * string) : bool :=
  negb (String.eqb (fst c) rundownId).

(** The loop over [playlistDeletedRundowns]. *)
Fixpoint emitDeletedRundowns (rs : list string) (pd : Pending) : list Event * Pending :=
  match rs with
  | [] => ([], pd)
  | r :: rest =>
      let pd' := {| pd_changed := filter (other_rundown r) (pd_changed pd);
                    pd_deleted := filter (other_rundown r) (pd_deleted pd);
                    pd_created := filter (other_rundown r) (pd_created pd);
                    pd_moved := filter (other_rundown r) (pd_moved pd) |} in
      let '(evs, pd'') := emitDeletedRundowns rest pd' in
      (rundown_delete r :: evs, pd'')
  end.

(** The loops over [playlistCreatedRundowns] and [playlistUpdatedRundowns]:
    they differ only in the event emitted. *)
Fixpoint emitRundownChanges (emitRundown : string -> IngestRundown -> Event)
  (toIngest : ResolvedRundown -> IngestRundown) (a : ResolvedPlaylist)
  (rs : list string) (pd : Pending) : list Event * Pending :=
  match rs with
  | [] => ([], pd)
  | r :: rest =>
      match find (fun x => String.eqb (pr_rundownId x) r) a with
      | None => emitRundownChanges emitRundown toIngest a rest pd
      | Some assignedRundown =>
          let rundown := toIngest assignedRundown in
          let pd' := {| pd_changed := filter (other_rundown r) (pd_changed pd);
                        pd_deleted := pd_deleted pd;
                        pd_created := filter (other_rundown r) (pd_created pd);
                        pd_moved := filter (other_rundown r) (pd_moved pd) |} in
          let '(evs, pd'') := emitRundownChanges emitRundown toIngest a rest pd' in
          (emitRundown (ig_externalId rundown) rundown :: evs, pd'')
      end
  end.

(** [rank = assignedRanks.get(segmentId)], and when it is [undefined]:
    [cachedData?.rank ?? 0]. *)
Definition segmentRank (assignedRanks : JSMap.t Q)
  (ingestCacheData : JSMap.t RundownSegment) (segmentId : string) : Q :=
  match JSMap.get segmentId assignedRanks with
  | Some rank => rank
  | None =>
      match JSMap.get segmentId ingestCacheData with
      | Some cachedData => sg_rank cachedData
      | None => 0
      end
  end.

(** The loops over [playlistChangedSegments] and [playlistCreatedSegments]. *)
Definition emitSegments (emitSegment : string -> string -> IngestSegment -> Event)
  (inewsCache : JSMap.t UnrankedSegment) (assignedRanks : JSMap.t Q)
  (ingestCacheData : JSMap.t RundownSegment) (l : list (string * string))
  : list Event :=
  flat_map (fun c =>
              let '(rundownId, segmentId) := c in
              match JSMap.get segmentId inewsCache with
              | None => []
              | Some inews =>
                  [emitSegment rundownId segmentId
                     (inewsToIngestSegment rundownId segmentId inews
                        (segmentRank assignedRanks ingestCacheData segmentId))]
              end) l.

(** The [updatedRanks] map built from [playlistMovedSegments]. *)
Definition collectUpdatedRanks (assignedRanks : JSMap.t Q)
  (ingestCacheData : JSMap.t RundownSegment) (moved : list (string * string))
  : JSMap.t (JSMap.t Q) :=
  fold_left (fun updatedRanks c =>
               let '(rundownId, segmentId) := c in
               let rundownRanks :=
                 match JSMap.get rundownId updatedRanks with
                 | Some x => x | None => [] end in
               JSMap.set rundownId
                 (JSMap.set segmentId (segmentRank assignedRanks ingestCacheData segmentId)
                            rundownRanks)
                 updatedRanks)
            moved [].

Definition emitChanges (playlistId : string) (playlistAssignments : ResolvedPlaylist)
  (inewsCache : JSMap.t UnrankedSegment) (assignedRanks : JSMap.t Q)
  (ingestCacheData : JSMap.t RundownSegment) (cs : list PlaylistChange)
  : list Event :=
  let '(evDeleted, pd1) := emitDeletedRundowns (deletedRundownsOf cs) (pending0 cs) in
  let evSegDeleted := map (fun c => segment_delete (fst c) (snd c)) (pd_deleted pd1) in
  let toIngest := fun ar =>
    playlistRundownToIngestRundown playlistId (pr_rundownId ar) (pr_segments ar)
      inewsCache assignedRanks (pr_backTime ar) in
  let '(evCreated, pd2) :=
    emitRundownChanges rundown_create toIngest playlistAssignments (createdRundownsOf cs) pd1 in
  let '(evUpdated, pd3) :=
    emitRundownChanges rundown_update toIngest playlistAssignments (updatedRundownsOf cs) pd2 in
  let evSegChanged := emitSegments segment_update inewsCache assignedRanks ingestCacheData (pd_changed pd3) in
  let evSegCreated := emitSegments segment_create inewsCache assignedRanks ingestCacheData (pd_created pd3) in
  let evRanks :=
    map (fun kv => segment_ranks_update (fst kv) (snd kv))
        (collectUpdatedRanks assignedRanks ingestCacheData (pd_moved pd3)) in
  evDeleted ++ evSegDeleted ++ evCreated ++ evUpdated ++ evSegChanged ++ evSegCreated ++ evRanks.

(** *** The whole of [processUpdatedRundown]

    [None] from an awaited call is a rejection: the function stops there
    and keeps the cache writes made before it. *)
Definition processUpdatedRundown (env : Env) (playlistId : string)
  (playlist : ReducedRundown) (st : Watcher) : PollOutcome :=
  let uncached := uncachedINewsData st playlistId playlist in
  let fetches := [(playlistId, uncached)] in
  match fetchINewsStoriesById env playlistId uncached with
  | None => mkPollOutcome st [] false fetches []
  | Some iNewsData =>
      let inewsCache := storeEntries iNewsData (cachedINewsData st) in
      let playlistAssignments :=
        withDefaultRundown playlistId
          (ResolveRundownIntoPlaylist env playlistId (segmentsToResolve inewsCache playlist)) in
      let '(skip, requests) :=
        segmentCacheRequests uncached (skipCacheForRundown st) playlistAssignments in
      match all_some (map (fun req => GetSegmentsCacheById env (fst req) (snd req)) requests) with
      | None =>
          mkPollOutcome
            {| previousRanks := previousRanks st;
               lastForcedRankRecalculation := lastForcedRankRecalculation st;
               cachedINewsData := inewsCache;
               cachedPlaylistAssignments := cachedPlaylistAssignments st;
               cachedAssignedRundowns := cachedAssignedRundowns st;
               skipCacheForRundown := skip;
               playlists := playlists st;
               rundowns := rundowns st;
               segments := segments st |}
            [] false fetches requests
      | Some ingestCacheList =>
          let ingestCacheData := storeEntries (List.concat ingestCacheList) [] in
          let assignedRundowns := assignedRundownsOf env inewsCache playlistAssignments in
          let diff :=
            DiffPlaylist env assignedRundowns
              (match JSMap.get playlistId (cachedAssignedRundowns st) with
               | Some old => old | None => [] end) in
          let segmentRanks :=
            AssignRanksToSegments env playlistAssignments (changes diff)
              (segmentChanges diff) (previousRanks st) (lastForcedRankRecalculation st) in
          let '(lastForced, assignedRanks, prevRanks) :=
            applyRankResults (date_now env) segmentRanks
              (lastForcedRankRecalculation st, [], previousRanks st) in
          mkPollOutcome
            {| previousRanks := prevRanks;
               lastForcedRankRecalculation := lastForced;
               cachedINewsData := inewsCache;
               cachedPlaylistAssignments :=
                 JSMap.set playlistId playlistAssignments (cachedPlaylistAssignments st);
               cachedAssignedRundowns :=
                 JSMap.set playlistId assignedRundowns (cachedAssignedRundowns st);
               skipCacheForRundown := skip;
               playlists :=
                 JSMap.set playlistId (map pr_rundownId playlistAssignments) (playlists st);
               rundowns :=
                 fold_left (fun m r => JSMap.set (pr_rundownId r) (pr_segments r) m)
                           playlistAssignments (rundowns st);
               segments :=
                 fold_left (fun m s => JSMap.set (rs_externalId s) s m)
                           (rr_segments playlist) (segments st) |}
            (emitChanges playlistId playlistAssignments inewsCache assignedRanks
               ingestCacheData (changes diff))
            true fetches requests
      end
  end.

(** ** Polling *)

(** An error thrown by [processUpdatedRundown] is caught and logged; only
    a rejected [downloadRundown] makes the poll of a queue reject. *)
Definition checkINewsRundownById (env : Env) (queue : string) (st : Watcher)
  : PollOutcome :=
  match downloadRundown env queue with
  | None => mkPollOutcome st [] false [] []
  | Some rundown =>
      if String.eqb (rr_gatewayVersion rundown) (gatewayVersion env) then
        let o := processUpdatedRundown env (rr_externalId rundown) rundown st in
        mkPollOutcome (po_state o) (po_events o) true (po_fetches o) (po_cacheRequests o)
      else mkPollOutcome st [] true [] []
  end.

Fixpoint checkINewsRundowns (env : Env) (queues : list string) (st : Watcher)
  : PollOutcome :=
  match queues with
  | [] => mkPollOutcome st [] true [] []
  | q :: rest =>
      let o := checkINewsRundownById env q st in
      if po_ok o then
        let o' := checkINewsRundowns env rest (po_state o) in
        mkPollOutcome (po_state o') (po_events o ++ po_events o') (po_ok o')
          (po_fetches o ++ po_fetches o') (po_cacheRequests o ++ po_cacheRequests o')
      else o
  end.

(** One run of [watch]: the cycle, then the status sent with [setStatus]
    ([None] when no status is sent). *)
Definition watch (env : Env) (st : Watcher) : PollOutcome * option StatusCode :=
  let o := checkINewsRundowns env (iNewsQueue env) st in
  (o, if po_ok o then
        if handler_isConnected env then Some GOOD else None
      else Some WARNING_MAJOR).

(** ** Observations used in the statements *)

(** The segment is stale against [segments]: missing there, or cached
    with another locator. *)
Definition stale_in_segments (st : Watcher) (segment : ReducedSegment) : bool :=
  match JSMap.get (rs_externalId segment) (segments st) with
  | None => true
  | Some cachedSegment => negb (String.eqb (rs_locator cachedSegment) (rs_locator segment))
  end.

(** The position of an event kind in the emission order of a poll. *)
Definition event_order (e : Event) : nat :=
  match e with
  | rundown_delete _ => 0
  | segment_delete _ _ => 1
  | rundown_create _ _ => 2
  | rundown_update _ _ => 3
  | segment_update _ _ _ => 4
  | segment_create _ _ _ => 5
  | segment_ranks_update _ _ => 6
  end.

(** The rundown of a [segment_update], [segment_create] or
    [segment_ranks_update] event. *)
Definition segment_event_rundown (e : Event) : option string :=
  match e with
  | segment_update r _ _ | segment_create r _ _ | segment_ranks_update r _ => Some r
  | _ => None
  end.

(** [e] is a rundown-level event for rundown [r]. *)
Definition rundown_level_event (r : string) (e : Event) : bool :=
  match e with
  | rundown_delete r' | rundown_create r' _ | rundown_update r' _ => String.eqb r r'
  | _ => false
  end.

Definition covered (r : string) (evs : list Event) : bool :=
  existsb (rundown_level_event r) evs.

(** The rundowns that receive a [segment_ranks_update], in emission order. *)
Definition ranks_update_rundowns (evs : list Event) : list string :=
  filter_some (map (fun e => match e with
                             | segment_ranks_update r _ => Some r
                             | _ => None end) evs).

(** A segment appears in an event: its own segment event, a rank update or
    the segment list of a rundown create or update. *)
Definition event_carries_segment (s : string) (e : Event) : bool :=
  match e with
  | segment_update _ s' _ | segment_create _ s' _ => String.eqb s s'
  | segment_ranks_update _ ranks => JSMap.has s ranks
  | rundown_create _ rd | rundown_update _ rd =>
      existsb (fun seg => String.eqb s (is_externalId seg)) (ig_segments rd)
  | _ => false
  end.

(** A non-empty string of ASCII digits: what [\d+] matches. *)
Definition is_digit_string (d : string) : bool :=
  negb (String.eqb d "") && forallb is_digit (list_ascii_of_string d).

(** Every key of [m] is still a key of [m']. *)
Definition keeps_keys {V} (m m' : JSMap.t V) : Prop :=
  forall k, JSMap.get k m <> None -> JSMap.get k m' <> None.

(** From [st] to [st'] no cache loses a key and no skip flag is added. *)
Definition caches_kept (st st' : Watcher) : Prop :=
  keeps_keys (previousRanks st) (previousRanks st') /\
  keeps_keys (lastForcedRankRecalculation st) (lastForcedRankRecalculation st') /\
  keeps_keys (cachedINewsData st) (cachedINewsData st') /\
  keeps_keys (cachedPlaylistAssignments st) (cachedPlaylistAssignments st') /\
  keeps_keys (cachedAssignedRundowns st) (cachedAssignedRundowns st') /\
  keeps_keys (playlists st) (playlists st') /\
  keeps_keys (rundowns st) (rundowns st') /\
  keeps_keys (segments st) (segments st') /\
  (forall x, JSSet.has x (skipCacheForRundown st') = true ->
             JSSet.has x (skipCacheForRundown st) = true).

(** ** Sample inputs

    A watcher with empty caches, and an environment for the single queue
    ["Q"] whose collaborators are fixed: [downloadRundown] returns
    [listing] for ["Q"], [fetchINewsStoriesById] returns one story per
    requested id (or rejects when [fetchOk] is false), the resolver returns
    [resolved], the Core cache is empty, and [DiffPlaylist] and
    [AssignRanksToSegments] return [diff] and [ranks]. *)

Definition sample_story : INewsStory := mkINewsStory "" false.

Definition sample_segment (id locator : string) : ReducedSegment :=
  mkReducedSegment id 0 0%Q id locator.

Definition sample_unranked (rundownId id locator : string) : UnrankedSegment :=
  mkUnrankedSegment id rundownId id 0 locator sample_story.

Definition sample_listing (version : string) (segs : list ReducedSegment) : ReducedRundown :=
  mkReducedRundown "Q" "Q" version segs.

Definition empty_watcher : Watcher := mkWatcher [] [] [] [] [] [] [] [] [].

Definition sample_env (connected fetchOk : bool) (listing : ReducedRundown)
  (resolved : ResolvedPlaylist) (diff : DiffResult) (ranks : list RankResult) : Env :=
  {| gatewayVersion := "v1";
     iNewsQueue := ["Q"];
     handler_isConnected := connected;
     date_now := 0;
     downloadRundown := fun queue => if String.eqb queue "Q" then Some listing else None;
     fetchINewsStoriesById := fun queue ids =>
       if fetchOk then Some (map (fun id => (id, sample_unranked queue id "L")) ids) else None;
     ResolveRundownIntoPlaylist := fun _ _ => resolved;
     GetSegmentsCacheById := fun _ _ => Some [];
     DiffPlaylist := fun _ _ => diff;
     AssignRanksToSegments := fun _ _ _ _ _ => ranks |}.

(** Playlist ["Q"] with rundowns ["Q_1"] (segment ["A"]) and ["Q_2"]
    (segment ["B"]), all cached. *)
Definition sample_resync_state : Watcher :=
  {| previousRanks := [];
     lastForcedRankRecalculation := [("Q_1", 5%Z)];
     cachedINewsData := [("A", sample_unranked "Q_1" "A" "L"); ("B", sample_unranked "Q_2" "B" "L")];
     cachedPlaylistAssignments :=
       [("Q", [mkResolvedRundown "Q_1" ["A"] None; mkResolvedRundown "Q_2" ["B"] None])];
     cachedAssignedRundowns := [];
     skipCacheForRundown := [];
     playlists := [("Q", ["Q_1"; "Q_2"])];
     rundowns := [("Q_1", ["A"]); ("Q_2", ["B"])];
     segments := [("A", sample_segment "A" "L"); ("B", sample_segment "B" "L")] |}.

(** As [sample_env], with [GetSegmentsCacheById] rejecting every call. *)
Definition sample_env_core_down (listing : ReducedRundown) : Env :=
  {| gatewayVersion := "v1";
     iNewsQueue := ["Q"];
     handler_isConnected := true;
     date_now := 0;
     downloadRundown := fun queue => if String.eqb queue "Q" then Some listing else None;
     fetchINewsStoriesById := fun queue ids =>
       Some (map (fun id => (id, sample_unranked queue id "L")) ids);
     ResolveRundownIntoPlaylist := fun _ _ => [];
     GetSegmentsCacheById := fun _ _ => None;
     DiffPlaylist := fun _ _ => mkDiffResult [] [];
     AssignRanksToSegments := fun _ _ _ _ _ => [] |}.

(** * Properties *)

(** ** Maps and sets *)

Lemma eqb_sym_bool (a b : string) : String.eqb a b = String.eqb b a.
Proof.
  destruct (String.eqb a b) eqn:E; destruct (String.eqb b a) eqn:E'; auto.
  - apply String.eqb_eq in E; subst; rewrite String.eqb_refl in E'; discriminate.
  - apply String.eqb_eq in E'; subst; rewrite String.eqb_refl in E; discriminate.
Qed.

Lemma get_set {V} (k k' : string) (v : V) (m : JSMap.t V) :
  JSMap.get k (JSMap.set k' v m) = if String.eqb k k' then Some v else JSMap.get k m.
Proof.
  induction m as [|[k0 v0] rest IH]; simpl.
  - reflexivity.
  - destruct (String.eqb k' k0) eqn:E.
    + apply String.eqb_eq in E; subst; simpl.
      destruct (String.eqb k k0); reflexivity.
    + simpl. rewrite IH.
      destruct (String.eqb k k') eqn:E1; [|reflexivity].
      apply String.eqb_eq in E1; subst; rewrite E; reflexivity.
Qed.

Lemma get_set_same {V} (k : string) (v : V) (m : JSMap.t V) :
  JSMap.get k (JSMap.set k v m) = Some v.
Proof. rewrite get_set, String.eqb_refl; reflexivity. Qed.

Lemma get_delete {V} (k k' : string) (m : JSMap.t V) :
  JSMap.get k (JSMap.delete k' m) = if String.eqb k k' then None else JSMap.get k m.
Proof.
  unfold JSMap.delete.
  induction m as [|[k0 v0] rest IH]; simpl.
  - destruct (String.eqb k k'); reflexivity.
  - destruct (String.eqb k' k0) eqn:E; simpl.
    + apply String.eqb_eq in E; subst. rewrite IH.
      destruct (String.eqb k k0); reflexivity.
    + rewrite IH. destruct (String.eqb k k0) eqn:E1; [|reflexivity].
      apply String.eqb_eq in E1; subst. rewrite eqb_sym_bool, E. reflexivity.
Qed.

Lemma has_add (x y : string) (s : JSSet.t) :
  JSSet.has x (JSSet.add y s) = String.eqb x y || JSSet.has x s.
Proof.
  unfold JSSet.add. destruct (JSSet.has y s) eqn:Hy.
  - destruct (String.eqb x y) eqn:E; simpl; [|reflexivity].
    apply String.eqb_eq in E; subst; exact Hy.
  - unfold JSSet.has. rewrite existsb_app; simpl.
    rewrite orb_false_r, orb_comm. reflexivity.
Qed.

Lemma has_delete (x y : string) (s : JSSet.t) :
  JSSet.has x (JSSet.delete y s) = negb (String.eqb x y) && JSSet.has x s.
Proof.
  unfold JSSet.has, JSSet.delete.
  induction s as [|z rest IH]; simpl.
  - destruct (String.eqb x y); reflexivity.
  - destruct (String.eqb y z) eqn:E; simpl.
    + apply String.eqb_eq in E; subst. rewrite IH.
      destruct (String.eqb x z); reflexivity.
    + rewrite IH. destruct (String.eqb x z) eqn:E1; simpl.
      * apply String.eqb_eq in E1; subst. rewrite eqb_sym_bool, E. reflexivity.
      * reflexivity.
Qed.

Lemma has_In (x : string) (s : JSSet.t) : JSSet.has x s = true <-> In x s.
Proof.
  unfold JSSet.has. rewrite existsb_exists. split.
  - intros [y [Hy E]]. apply String.eqb_eq in E; subst; exact Hy.
  - intros H. exists x. split; [exact H|apply String.eqb_refl].
Qed.

(** ** [ResyncRundown] *)

Lemma resync_delete_fold (l : list string)
  (acc : JSMap.t ReducedSegment * JSMap.t UnrankedSegment) :
  forall s, (In s l \/ (JSMap.get s (fst acc) = None /\ JSMap.get s (snd acc) = None)) ->
  JSMap.get s (fst (fold_left (fun '(segs, inews) segmentId =>
                     (JSMap.delete segmentId segs, JSMap.delete segmentId inews)) l acc)) = None /\
  JSMap.get s (snd (fold_left (fun '(segs, inews) segmentId =>
                     (JSMap.delete segmentId segs, JSMap.delete segmentId inews)) l acc)) = None.
Proof.
  revert acc. induction l as [|x rest IH]; intros [segs inews] s H; simpl in *.
  - destruct H as [[]|H]; exact H.
  - apply IH. simpl. rewrite !get_delete.
    destruct (String.eqb s x) eqn:E.
    + right; split; reflexivity.
    + destruct H as [[H|H]|H].
      * subst. rewrite String.eqb_refl in E; discriminate.
      * left; exact H.
      * right; exact H.
Qed.

Lemma In_filter_not (rid : string) (l : list string) :
  ~ In rid (filter (fun r => negb (String.eqb r rid)) l).
Proof.
  intros H. apply filter_In in H as [_ H].
  rewrite String.eqb_refl in H; discriminate.
Qed.

(** [C10] When the playlist derived from the rundown id (by removing the
    suffix [_<digits>]) is not in [playlists], or the rundown id is not in
    [rundowns], [ResyncRundown] leaves the whole watcher state as it was:
    no cache entry is removed and [skipCacheForRundown] is not armed. *)
Lemma resync_missing_is_noop (rid : string) (st : Watcher)
  (Hmissing : JSMap.get (replace_rundown_suffix rid) (playlists st) = None \/
              JSMap.get rid (rundowns st) = None) :
  ResyncRundown rid st = st.
Proof.
  unfold ResyncRundown.
  destruct Hmissing as [H|H]; rewrite H; [reflexivity|].
  destruct (JSMap.get (replace_rundown_suffix rid) (playlists st)); reflexivity.
Qed.

Lemma cacheRequests_absent (rid : string) (u : JSSet.t) (a : ResolvedPlaylist) :
  forall skip, ~ In rid (map pr_rundownId a) ->
  JSSet.has rid (fst (segmentCacheRequests u skip a)) = JSSet.has rid skip /\
  (forall ids, ~ In (rid, ids) (snd (segmentCacheRequests u skip a))).
Proof.
  induction a as [|r rest IH]; intros skip Hnot; simpl in *.
  - split; [reflexivity|tauto].
  - assert (Hne : pr_rundownId r <> rid) by tauto.
    assert (Hrest : ~ In rid (map pr_rundownId rest)) by tauto.
    destruct (JSSet.has (pr_rundownId r) skip).
    + destruct (IH (JSSet.delete (pr_rundownId r) skip) Hrest) as [H1 H2].
      split; [|exact H2]. rewrite H1, has_delete.
      destruct (String.eqb rid (pr_rundownId r)) eqn:E; [|reflexivity].
      apply String.eqb_eq in E; congruence.
    + destruct (IH skip Hrest) as [H1 H2].
      destruct (segmentCacheRequests u skip rest) as [skip' reqs] eqn:Ereq; simpl in *.
      split; [exact H1|]. intros ids [Heq|Hin].
      * inversion Heq; congruence.
      * exact (H2 ids Hin).
Qed.

Lemma cacheRequests_consume (rid : string) (u : JSSet.t) (a : ResolvedPlaylist) :
  forall skip, NoDup (map pr_rundownId a) -> In rid (map pr_rundownId a) ->
  JSSet.has rid skip = true ->
  JSSet.has rid (fst (segmentCacheRequests u skip a)) = false /\
  (forall ids, ~ In (rid, ids) (snd (segmentCacheRequests u skip a))).
Proof.
  induction a as [|r rest IH]; intros skip Hnd Hin Hhas; simpl in *.
  - contradiction.
  - inversion Hnd as [|x l Hnotin Hnd']; subst.
    destruct (String.eqb (pr_rundownId r) rid) eqn:E.
    + apply String.eqb_eq in E. rewrite E in *. rewrite Hhas.
      destruct (cacheRequests_absent rid u rest (JSSet.delete rid skip) Hnotin) as [H1 H2].
      split; [|exact H2]. rewrite H1, has_delete, String.eqb_refl. reflexivity.
    + assert (Hne : pr_rundownId r <> rid) by (intro; subst; rewrite String.eqb_refl in E; discriminate).
      assert (Hin' : In rid (map pr_rundownId rest)) by (destruct Hin; [congruence|assumption]).
      destruct (JSSet.has (pr_rundownId r) skip).
      * apply IH; auto. rewrite has_delete, eqb_sym_bool, E. exact Hhas.
      * destruct (IH skip Hnd' Hin' Hhas) as [H1 H2].
        destruct (segmentCacheRequests u skip rest) as [skip' reqs]; simpl in *.
        split; [exact H1|]. intros ids [Heq|Hin2].
        -- inversion Heq; congruence.
        -- exact (H2 ids Hin2).
Qed.

Lemma process_skip_and_requests (env : Env) (p : string) (pl : ReducedRundown)
  (st : Watcher) (m : JSMap.t UnrankedSegment) :
  fetchINewsStoriesById env p (uncachedINewsData st p pl) = Some m ->
  let a := withDefaultRundown p
             (ResolveRundownIntoPlaylist env p
                (segmentsToResolve (storeEntries m (cachedINewsData st)) pl)) in
  let o := processUpdatedRundown env p pl st in
  skipCacheForRundown (po_state o) =
    fst (segmentCacheRequests (uncachedINewsData st p pl) (skipCacheForRundown st) a) /\
  po_cacheRequests o =
    snd (segmentCacheRequests (uncachedINewsData st p pl) (skipCacheForRundown st) a).
Proof.
  intros Hf a o. subst o a. unfold processUpdatedRundown. rewrite Hf.
  destruct (segmentCacheRequests _ _ _) as [skip reqs].
  destruct (all_some _); [|split; reflexivity].
  destruct (applyRankResults _ _ _) as [[lf ar] pr]. split; reflexivity.
Qed.

(** [C8] For a rundown [rid] whose playlist and segment list are cached,
    [ResyncRundown rid] removes the rundown's segments from [segments] and
    [cachedINewsData], removes [rid] from [rundowns], from its playlist's
    rundown list and from the cached playlist assignment, clears its
    [lastForcedRankRecalculation] entry and adds it to
    [skipCacheForRundown]; the next poll whose resolved playlist contains
    [rid] (once, as resolved ids are [<playlist>_1], [_2], ...) removes the
    flag and makes no [GetSegmentsCacheById] call for [rid]. *)
Theorem resync_invalidates_and_skips (env : Env) (st : Watcher) (rid : string)
  (playlist rundown : list string)
  (Hpl : JSMap.get (replace_rundown_suffix rid) (playlists st) = Some playlist)
  (Hrd : JSMap.get rid (rundowns st) = Some rundown) :
  let st' := ResyncRundown rid st in
  (forall s, In s rundown ->
     JSMap.get s (segments st') = None /\ JSMap.get s (cachedINewsData st') = None) /\
  JSMap.get rid (rundowns st') = None /\
  JSMap.get (replace_rundown_suffix rid) (playlists st') =
    Some (filter (fun r => negb (String.eqb r rid)) playlist) /\
  ~ In rid (filter (fun r => negb (String.eqb r rid)) playlist) /\
  (forall a, JSMap.get (replace_rundown_suffix rid) (cachedPlaylistAssignments st') = Some a ->
     ~ In rid (map pr_rundownId a)) /\
  JSMap.get rid (lastForcedRankRecalculation st') = None /\
  JSSet.has rid (skipCacheForRundown st') = true /\
  (forall p pl,
     (forall ids, fetchINewsStoriesById env p ids <> None) ->
     (forall segs, In rid (map pr_rundownId (ResolveRundownIntoPlaylist env p segs)) /\
                   NoDup (map pr_rundownId (ResolveRundownIntoPlaylist env p segs))) ->
     let o := processUpdatedRundown env p pl st' in
     JSSet.has rid (skipCacheForRundown (po_state o)) = false /\
     (forall ids, ~ In (rid, ids) (po_cacheRequests o))).
Proof.
  intros st'.
  assert (Hskip : JSSet.has rid (skipCacheForRundown st') = true).
  { subst st'. unfold ResyncRundown. rewrite Hpl, Hrd.
    destruct (fold_left _ rundown _) as [segs inews]. simpl.
    rewrite has_add, String.eqb_refl. reflexivity. }
  split; [|split; [|split; [|split; [|split; [|split; [|split]]]]]].
  - intros s Hs. subst st'. unfold ResyncRundown. rewrite Hpl, Hrd.
    pose proof (resync_delete_fold rundown (segments st, cachedINewsData st) s (or_introl Hs)) as H.
    destruct (fold_left _ rundown _) as [segs inews]. exact H.
  - subst st'. unfold ResyncRundown. rewrite Hpl, Hrd.
    destruct (fold_left _ rundown _) as [segs inews]. simpl.
    rewrite get_delete, String.eqb_refl. reflexivity.
  - subst st'. unfold ResyncRundown. rewrite Hpl, Hrd.
    destruct (fold_left _ rundown _) as [segs inews]. simpl.
    apply get_set_same.
  - apply In_filter_not.
  - intros a Ha. subst st'. unfold ResyncRundown in Ha. rewrite Hpl, Hrd in Ha.
    destruct (fold_left _ rundown _) as [segs inews]. simpl in Ha.
    destruct (JSMap.get (replace_rundown_suffix rid) (cachedPlaylistAssignments st)) eqn:Ec.
    + rewrite get_set_same in Ha. inversion Ha; subst.
      intros Hin. apply in_map_iff in Hin as [x [Hx Hin]].
      apply filter_In in Hin as [_ Hin]. rewrite Hx, String.eqb_refl in Hin. discriminate.
    + congruence.
  - subst st'. unfold ResyncRundown. rewrite Hpl, Hrd.
    destruct (fold_left _ rundown _) as [segs inews]. simpl.
    rewrite get_delete, String.eqb_refl. reflexivity.
  - exact Hskip.
  - intros p pl Hfetch Hres o.
    destruct (fetchINewsStoriesById env p (uncachedINewsData st' p pl)) as [m|] eqn:Hf;
      [|exfalso; exact (Hfetch _ Hf)].
    destruct (process_skip_and_requests env p pl st' m Hf) as [E1 E2].
    subst o. rewrite E1, E2.
    set (segs := segmentsToResolve (storeEntries m (cachedINewsData st')) pl).
    destruct (Hres segs) as [Hin Hnd].
    assert (Hwd : withDefaultRundown p (ResolveRundownIntoPlaylist env p segs) =
                  ResolveRundownIntoPlaylist env p segs).
    { destruct (ResolveRundownIntoPlaylist env p segs); [contradiction|reflexivity]. }
    rewrite Hwd. apply cacheRequests_consume; assumption.
Qed.

(** ** Resolution and story fetching *)

Lemma all_some_total {A B} (f : A -> option B) (l : list A) :
  (forall x, In x l -> f x <> None) -> exists r, all_some (map f l) = Some r.
Proof.
  induction l as [|x rest IH]; intros H; simpl.
  - exists []; reflexivity.
  - destruct (f x) as [y|] eqn:E; [|exfalso; exact (H x (or_introl eq_refl) E)].
    destruct IH as [r Hr]; [intros z Hz; apply H; right; exact Hz|].
    rewrite Hr. exists (y :: r). reflexivity.
Qed.

(** [C4] When [ResolveRundownIntoPlaylist] returns no rundown for playlist
    [p], a poll whose NRCS and Core calls resolve completes without error
    and records exactly one rundown [`${p}_1`] with no segments: in
    [cachedPlaylistAssignments], [playlists] and [rundowns]. *)
Theorem resolver_empty_single_rundown (env : Env) (p : string)
  (pl : ReducedRundown) (st : Watcher)
  (Hres : forall segs, ResolveRundownIntoPlaylist env p segs = [])
  (Hfetch : forall ids, fetchINewsStoriesById env p ids <> None)
  (Hcore : forall r ids, GetSegmentsCacheById env r ids <> None) :
  let o := processUpdatedRundown env p pl st in
  po_ok o = true /\
  JSMap.get p (cachedPlaylistAssignments (po_state o)) =
    Some [{| pr_rundownId := (p ++ "_1")%string; pr_segments := []; pr_backTime := None |}] /\
  JSMap.get p (playlists (po_state o)) = Some [(p ++ "_1")%string] /\
  JSMap.get (p ++ "_1")%string (rundowns (po_state o)) = Some [].
Proof.
  intros o. subst o. unfold processUpdatedRundown.
  destruct (fetchINewsStoriesById env p _) as [m|] eqn:Hf;
    [|exfalso; exact (Hfetch _ Hf)].
  rewrite Hres. simpl withDefaultRundown.
  destruct (segmentCacheRequests _ _ _) as [skip reqs].
  destruct (all_some_total (fun req => GetSegmentsCacheById env (fst req) (snd req)) reqs)
    as [r Hr]; [intros x _; apply Hcore|].
  rewrite Hr.
  destruct (applyRankResults _ _ _) as [[lf ar] pr]. simpl.
  rewrite !get_set_same. repeat split.
Qed.

Lemma fold_left_ext {A B} (f g : A -> B -> A) (l : list B) (a : A) :
  (forall x y, f x y = g x y) -> fold_left f l a = fold_left g l a.
Proof. revert a; induction l; intros a0 H; simpl; [reflexivity|rewrite H; apply IHl; exact H]. Qed.

Lemma In_add (s y : string) (u : JSSet.t) : In s (JSSet.add y u) <-> y = s \/ In s u.
Proof.
  rewrite <- !has_In, has_add. rewrite orb_true_iff, String.eqb_eq. intuition congruence.
Qed.

Lemma In_fold_add {A} (keep : A -> bool) (key : A -> string) (l : list A) :
  forall u s,
  In s (fold_left (fun u x => if keep x then u else JSSet.add (key x) u) l u) <->
  In s u \/ exists x, In x l /\ key x = s /\ keep x = false.
Proof.
  induction l as [|x rest IH]; intros u s; simpl.
  - split; [tauto|intros [H|[x [[] _]]]; exact H].
  - rewrite IH. destruct (keep x) eqn:Ek.
    + split.
      * intros [H|[y [Hy Hk]]]; [left; exact H|right; exists y; tauto].
      * intros [H|[y [[Hy|Hy] Hk]]]; [left; exact H| |right; exists y; tauto].
        subst; destruct Hk as [_ Hk]; congruence.
    + rewrite In_add. split.
      * intros [[H|H]|[y [Hy Hk]]]; [right; exists x; tauto|left; exact H|right; exists y; tauto].
      * intros [H|[y [[Hy|Hy] Hk]]]; [left; right; exact H| |right; exists y; tauto].
        subst; left; left; tauto.
Qed.

Lemma uncached_spec (st : Watcher) (p : string) (pl : ReducedRundown) (s : string) :
  In s (uncachedINewsData st p pl) <->
  exists seg, In seg (rr_segments pl) /\ rs_externalId seg = s /\
    (JSMap.get s (cachedINewsData st) = None \/
     (JSMap.get p (playlists st) <> None /\ stale_in_segments st seg = true)).
Proof.
  unfold uncachedINewsData.
  assert (H0 : forall s, In s (fold_left (fun u s0 =>
              if JSMap.has (rs_externalId s0) (cachedINewsData st) then u
              else JSSet.add (rs_externalId s0) u) (rr_segments pl) []) <->
            exists seg, In seg (rr_segments pl) /\ rs_externalId seg = s /\
              JSMap.get s (cachedINewsData st) = None).
  { intros s0. rewrite (In_fold_add (fun x => JSMap.has (rs_externalId x) (cachedINewsData st))
                          rs_externalId).
    split.
    - intros [[]|[x [Hx [Hk Hh]]]]. exists x. subst. unfold JSMap.has in Hh.
      destruct (JSMap.get _ _); [discriminate|tauto].
    - intros [x [Hx [Hk Hh]]]. right. exists x. subst. unfold JSMap.has. rewrite Hh. tauto. }
  destruct (JSMap.get p (playlists st)) as [cp|] eqn:Ep.
  - rewrite (fold_left_ext _ (fun u x => if negb (stale_in_segments st x) then u
                                         else JSSet.add (rs_externalId x) u)).
    + rewrite In_fold_add, H0. split.
      * intros [[x Hx]|[x [Hx [Hk Hs]]]]; exists x; [tauto|].
        apply negb_false_iff in Hs. split; [exact Hx|split; [exact Hk|right; split; [discriminate|exact Hs]]].
      * intros [x [Hx [Hk [Hn|[_ Hs]]]]].
        -- left; exists x; tauto.
        -- right; exists x; rewrite Hs; tauto.
    + intros u x. unfold stale_in_segments.
      destruct (JSMap.get (rs_externalId x) (segments st)); [|reflexivity].
      destruct (String.eqb _ _); reflexivity.
  - rewrite H0. split.
    + intros [x Hx]; exists x; tauto.
    + intros [x [Hx [Hk [Hn|[Hc _]]]]]; [exists x; tauto|congruence].
Qed.

Lemma storeEntries_other {V} (entries m : JSMap.t V) (k : string) :
  ~ In k (map fst entries) -> JSMap.get k (storeEntries entries m) = JSMap.get k m.
Proof.
  unfold storeEntries. revert m.
  induction entries as [|[k0 v0] rest IH]; intros m Hk; simpl in *; [reflexivity|].
  rewrite IH by tauto. rewrite get_set.
  destruct (String.eqb k k0) eqn:E; [|reflexivity].
  apply String.eqb_eq in E; subst; tauto.
Qed.

Lemma storeEntries_written {V} (entries m : JSMap.t V) (k : string) :
  In k (map fst entries) ->
  exists v, JSMap.get k (storeEntries entries m) = Some v /\ In (k, v) entries.
Proof.
  unfold storeEntries. revert m.
  induction entries as [|[k0 v0] rest IH]; intros m Hk; simpl in *; [contradiction|].
  destruct (in_dec String.string_dec k (map fst rest)) as [Hin|Hnin].
  - destruct (IH (JSMap.set k0 v0 m) Hin) as [v [Hv Hkv]].
    exists v; split; [exact Hv|right; exact Hkv].
  - destruct Hk as [Hk|Hk]; [|contradiction]. subst k0.
    exists v0. split; [|left; reflexivity].
    fold (storeEntries rest (JSMap.set k v0 m)).
    rewrite storeEntries_other by exact Hnin. apply get_set_same.
Qed.

(** [C5] (as the code does it) The one call to [fetchINewsStoriesById] of
    a poll asks for exactly the listed segment ids that are missing from
    [cachedINewsData], or, when the playlist is already in [playlists],
    that are missing from [segments] or listed with a locator other than
    the one cached in [segments]; every story the call returns is then in
    [cachedINewsData]. *)
Theorem stale_segments_fetched (env : Env) (st : Watcher) (p : string)
  (pl : ReducedRundown) :
  let o := processUpdatedRundown env p pl st in
  po_fetches o = [(p, uncachedINewsData st p pl)] /\
  (forall s, In s (uncachedINewsData st p pl) <->
     exists seg, In seg (rr_segments pl) /\ rs_externalId seg = s /\
       (JSMap.get s (cachedINewsData st) = None \/
        (JSMap.get p (playlists st) <> None /\ stale_in_segments st seg = true))) /\
  (forall m, fetchINewsStoriesById env p (uncachedINewsData st p pl) = Some m ->
     forall k, In k (map fst m) ->
     exists v, JSMap.get k (cachedINewsData (po_state o)) = Some v /\ In (k, v) m).
Proof.
  intros o. split; [|split].
  - subst o. unfold processUpdatedRundown.
    destruct (fetchINewsStoriesById _ _ _); [|reflexivity].
    destruct (segmentCacheRequests _ _ _) as [skip reqs].
    destruct (all_some _); [|reflexivity].
    destruct (applyRankResults _ _ _) as [[lf ar] pr]. reflexivity.
  - apply uncached_spec.
  - intros m Hm k Hk.
    assert (E : cachedINewsData (po_state o) = storeEntries m (cachedINewsData st)).
    { subst o. unfold processUpdatedRundown. rewrite Hm.
      destruct (segmentCacheRequests _ _ _) as [skip reqs].
      destruct (all_some _); [|reflexivity].
      destruct (applyRankResults _ _ _) as [[lf ar] pr]. reflexivity. }
    rewrite E. apply storeEntries_written; exact Hk.
Qed.

(** ** Event emission *)

Lemma In_filter_some_map {A B} (f : A -> option B) (l : list A) (y : B) :
  In y (filter_some (map f l)) <-> exists x, In x l /\ f x = Some y.
Proof.
  induction l as [|x rest IH]; simpl.
  - split; [intros []|intros [x [[] _]]].
  - destruct (f x) as [z|] eqn:E; simpl; rewrite IH.
    + split.
      * intros [H|[w Hw]]; [exists x; subst; tauto|exists w; tauto].
      * intros [w [[Hw|Hw] Hf]]; [subst; left; congruence|right; exists w; tauto].
    + split.
      * intros [w Hw]; exists w; tauto.
      * intros [w [[Hw|Hw] Hf]]; [subst; congruence|exists w; tauto].
Qed.

Lemma In_other (r : string) (c : string * string) (l : list (string * string)) :
  In c (filter (other_rundown r) l) <-> In c l /\ fst c <> r.
Proof.
  rewrite filter_In. unfold other_rundown. rewrite negb_true_iff, String.eqb_neq. tauto.
Qed.

Definition filtered_fields (proj : Pending -> list (string * string)) : Prop :=
  proj = pd_changed \/ proj = pd_created \/ proj = pd_moved.

Lemma emitDeletedRundowns_spec (rs : list string) :
  forall pd,
  fst (emitDeletedRundowns rs pd) = map rundown_delete rs /\
  (forall proj, filtered_fields proj \/ proj = pd_deleted ->
   forall c, In c (proj (snd (emitDeletedRundowns rs pd))) <->
             In c (proj pd) /\ ~ In (fst c) rs).
Proof.
  induction rs as [|r rest IH]; intros pd; simpl.
  - split; [reflexivity|intros proj _ c; tauto].
  - match goal with |- context [emitDeletedRundowns rest ?pd'] =>
      destruct (IH pd') as [H1 H2]; destruct (emitDeletedRundowns rest pd') as [evs pd''] end.
    simpl in *. split; [rewrite H1; reflexivity|].
    intros proj Hp c. rewrite (H2 proj Hp c).
    destruct Hp as [[Hp|[Hp|Hp]]|Hp]; subst proj; simpl; rewrite In_other;
      split; intros H; intuition congruence.
Qed.

Lemma emitRundownChanges_spec (mk : string -> IngestRundown -> Event)
  (toIngest : ResolvedRundown -> IngestRundown) (a : ResolvedPlaylist)
  (Hinj : forall r r' x y, mk r x = mk r' y -> r = r')
  (Hid : forall ar, ig_externalId (toIngest ar) = pr_rundownId ar)
  (rs : list string) :
  forall pd,
  (forall e, In e (fst (emitRundownChanges mk toIngest a rs pd)) -> exists r x, e = mk r x) /\
  pd_deleted (snd (emitRundownChanges mk toIngest a rs pd)) = pd_deleted pd /\
  (forall proj, filtered_fields proj ->
   forall c, In c (proj (snd (emitRundownChanges mk toIngest a rs pd))) <->
             In c (proj pd) /\
             ~ (exists x, In (mk (fst c) x) (fst (emitRundownChanges mk toIngest a rs pd)))).
Proof.
  induction rs as [|r rest IH]; intros pd; simpl.
  - split; [intros e []|split; [reflexivity|]].
    intros proj _ c. split; [intros H; split; [exact H|intros [x []]]|tauto].
  - destruct (find (fun x => String.eqb (pr_rundownId x) r) a) as [ar|] eqn:Ef.
    + apply find_some in Ef as [_ Eid]. apply String.eqb_eq in Eid.
      match goal with |- context [emitRundownChanges mk toIngest a rest ?pd'] =>
        destruct (IH pd') as [H1 [H2 H3]];
        destruct (emitRundownChanges mk toIngest a rest pd') as [evs pd''] end.
      simpl in *. rewrite Hid, Eid. split; [|split; [exact H2|]].
      * intros e [He|He]; [exists r, (toIngest ar); symmetry; exact He|exact (H1 e He)].
      * intros proj Hp c. rewrite (H3 proj Hp c).
        assert (Hmk : (exists x, mk r (toIngest ar) = mk (fst c) x \/ In (mk (fst c) x) evs) <->
                      fst c = r \/ exists x, In (mk (fst c) x) evs).
        { split.
          - intros [x [Hx|Hx]]; [left; symmetry; exact (Hinj _ _ _ _ Hx)|right; exists x; exact Hx].
          - intros [Hx|[x Hx]]; [exists (toIngest ar); left; rewrite Hx; reflexivity|].
            exists x; right; exact Hx. }
        rewrite Hmk.
        destruct Hp as [Hp|[Hp|Hp]]; subst proj; simpl; rewrite In_other;
          split; intros H; intuition congruence.
    + exact (IH pd).
Qed.

Lemma In_emitSegments (mk : string -> string -> IngestSegment -> Event)
  (c : JSMap.t UnrankedSegment) (ar : JSMap.t Q) (ic : JSMap.t RundownSegment)
  (l : list (string * string)) (e : Event) :
  In e (emitSegments mk c ar ic l) <->
  exists r s inews, In (r, s) l /\ JSMap.get s c = Some inews /\
    e = mk r s (inewsToIngestSegment r s inews (segmentRank ar ic s)).
Proof.
  unfold emitSegments. rewrite in_flat_map. split.
  - intros [[r s] [Hin He]].
    destruct (JSMap.get s c) as [inews|] eqn:Ec; [|destruct He].
    destruct He as [He|[]]. exists r, s, inews. split; [exact Hin|split; [exact Ec|symmetry; exact He]].
  - intros [r [s [inews [Hin [Ec He]]]]]. exists (r, s). rewrite Ec.
    split; [exact Hin|left; symmetry; exact He].
Qed.

Lemma In_keys_set {V} (x k : string) (v : V) (m : JSMap.t V) :
  In x (map fst (JSMap.set k v m)) <-> x = k \/ In x (map fst m).
Proof.
  induction m as [|[k0 v0] rest IH]; simpl.
  - split; intros [H|[]]; left; symmetry; exact H.
  - destruct (String.eqb k k0) eqn:E; simpl.
    + apply String.eqb_eq in E; subst.
      split; [intros [H|H]; [left; symmetry; exact H|right; right; exact H]|].
      intros [H|[H|H]]; [left; symmetry; exact H|left; exact H|right; exact H].
    + rewrite IH.
      split; [intros [H|[H|H]]; [right; left; exact H|left; exact H|right; right; exact H]|].
      intros [H|[H|H]]; [right; left; exact H|left; exact H|right; right; exact H].
Qed.

Lemma NoDup_set {V} (k : string) (v : V) (m : JSMap.t V) :
  NoDup (map fst m) -> NoDup (map fst (JSMap.set k v m)).
Proof.
  induction m as [|[k0 v0] rest IH]; simpl; intros Hnd.
  - constructor; [intros []|constructor].
  - inversion Hnd as [|x l Hnin Hnd']; subst.
    destruct (String.eqb k k0) eqn:E; simpl.
    + apply String.eqb_eq in E; subst. exact Hnd.
    + constructor; [|exact (IH Hnd')].
      rewrite In_keys_set. intros [H|H]; [|contradiction].
      subst; rewrite String.eqb_refl in E; discriminate.
Qed.

Lemma get_In_NoDup {V} (k : string) (v : V) (m : JSMap.t V) :
  NoDup (map fst m) -> In (k, v) m -> JSMap.get k m = Some v.
Proof.
  induction m as [|[k0 v0] rest IH]; simpl; intros Hnd Hin; [contradiction|].
  inversion Hnd as [|x l Hnin Hnd']; subst.
  destruct Hin as [Heq|Hin].
  - inversion Heq; subst. rewrite String.eqb_refl. reflexivity.
  - destruct (String.eqb k k0) eqn:E.
    + apply String.eqb_eq in E; subst.
      exfalso; apply Hnin. apply in_map_iff. exists (k0, v); split; [reflexivity|exact Hin].
    + exact (IH Hnd' Hin).
Qed.

Lemma fold_left_invariant {A B} (P : A -> list B -> Prop) (f : A -> B -> A) (l : list B) :
  forall a done, P a done ->
  (forall a done x, P a done -> P (f a x) (done ++ [x])) ->
  P (fold_left f l a) (done ++ l).
Proof.
  induction l as [|x rest IH]; intros a done H Hstep; simpl.
  - rewrite app_nil_r; exact H.
  - replace (done ++ x :: rest) with ((done ++ [x]) ++ rest)
      by (rewrite <- app_assoc; reflexivity).
    apply IH; [apply Hstep; exact H|exact Hstep].
Qed.

Definition updatedRanks_inv (rank : string -> Q) (acc : JSMap.t (JSMap.t Q))
  (done : list (string * string)) : Prop :=
  NoDup (map fst acc) /\
  (forall r payload, JSMap.get r acc = Some payload ->
     forall s q, JSMap.get s payload = Some q <-> In (r, s) done /\ q = rank s) /\
  (forall r, JSMap.get r acc <> None <-> exists s, In (r, s) done).

Lemma collectUpdatedRanks_spec (ar : JSMap.t Q) (ic : JSMap.t RundownSegment)
  (moved : list (string * string)) :
  updatedRanks_inv (segmentRank ar ic) (collectUpdatedRanks ar ic moved) moved.
Proof.
  unfold collectUpdatedRanks.
  change moved with ([] ++ moved) at 2.
  apply fold_left_invariant.
  - split; [constructor|split].
    + intros r payload H; discriminate.
    + intros r; split; [intros H; exfalso; apply H; reflexivity|intros [s []]].
  - intros acc done [r0 s0] [Hnd [Hpay Hdom]]. simpl.
    set (rp := match JSMap.get r0 acc with Some x => x | None => [] end).
    split; [apply NoDup_set; exact Hnd|split].
    + intros r payload Hget s q. rewrite get_set in Hget.
      destruct (String.eqb r r0) eqn:Er.
      * apply String.eqb_eq in Er; subst r. inversion Hget; subst payload.
        rewrite get_set, in_app_iff.
        destruct (String.eqb s s0) eqn:Es.
        -- apply String.eqb_eq in Es; subst s. split.
           ++ intros Hq; inversion Hq; subst; split; [right; left; reflexivity|reflexivity].
           ++ intros [_ Hq]; subst; reflexivity.
        -- assert (Hrp : JSMap.get s rp = Some q <-> In (r0, s) done /\ q = segmentRank ar ic s).
           { subst rp. destruct (JSMap.get r0 acc) as [x|] eqn:Ex.
             - exact (Hpay r0 x Ex s q).
             - split; [intros H; discriminate|intros [Hin _]].
               exfalso. apply (proj2 (Hdom r0)); [exists s; exact Hin|exact Ex]. }
           rewrite Hrp. simpl. split.
           ++ intros [Hin Hq]; tauto.
           ++ intros [[Hin|[Heq|[]]] Hq]; [tauto|].
              inversion Heq; subst; rewrite String.eqb_refl in Es; discriminate.
      * assert (Hne : r <> r0) by (intro; subst; rewrite String.eqb_refl in Er; discriminate).
        rewrite (Hpay r payload Hget s q), in_app_iff. simpl. split.
        -- intros [Hin Hq]; tauto.
        -- intros [[Hin|[Heq|[]]] Hq]; [tauto|inversion Heq; congruence].
    + intros r. rewrite get_set. destruct (String.eqb r r0) eqn:Er.
      * apply String.eqb_eq in Er; subst. split; [intros _; exists s0; apply in_app_iff; right; left; reflexivity|discriminate].
      * assert (Hne : r <> r0) by (intro; subst; rewrite String.eqb_refl in Er; discriminate).
        rewrite Hdom. split.
        -- intros [s Hs]; exists s; apply in_app_iff; left; exact Hs.
        -- intros [s Hs]; apply in_app_iff in Hs as [Hs|[Heq|[]]];
             [exists s; exact Hs|inversion Heq; congruence].
Qed.

Lemma covered_false_iff (r : string) (l : list Event) :
  covered r l = false <-> forall e, In e l -> rundown_level_event r e = false.
Proof.
  unfold covered. induction l as [|e rest IH]; simpl.
  - split; [intros _ e []|reflexivity].
  - rewrite orb_false_iff, IH. split.
    + intros [H1 H2] e' [He|He]; [subst; exact H1|exact (H2 e' He)].
    + intros H; split; [apply H; left; reflexivity|intros e' He; apply H; right; exact He].
Qed.

Lemma level_false_iff_not_in (r : string) (mk : string -> IngestRundown -> Event)
  (evs : list Event)
  (Hlevel : forall r' x, rundown_level_event r (mk r' x) = String.eqb r r')
  (Hshape : forall e, In e evs -> exists r' x, e = mk r' x) :
  (forall e, In e evs -> rundown_level_event r e = false) <-> ~ exists x, In (mk r x) evs.
Proof.
  split.
  - intros H [x Hx]. specialize (H _ Hx). rewrite Hlevel, String.eqb_refl in H. discriminate.
  - intros H e He. destruct (Hshape e He) as [r' [x Ex]]; subst e.
    rewrite Hlevel. apply String.eqb_neq. intros Er; subst r'. apply H. exists x; exact He.
Qed.

Lemma emitChanges_shape (p : string) (a : ResolvedPlaylist)
  (c : JSMap.t UnrankedSegment) (ar : JSMap.t Q) (ic : JSMap.t RundownSegment)
  (cs : list PlaylistChange) :
  exists evDel evSegDel evC evU pd3,
    emitChanges p a c ar ic cs =
      evDel ++ evSegDel ++ evC ++ evU ++
      emitSegments segment_update c ar ic (pd_changed pd3) ++
      emitSegments segment_create c ar ic (pd_created pd3) ++
      map (fun kv => segment_ranks_update (fst kv) (snd kv))
          (collectUpdatedRanks ar ic (pd_moved pd3)) /\
    (forall e, In e evDel -> exists r, e = rundown_delete r) /\
    (forall e, In e evSegDel -> exists r s, e = segment_delete r s) /\
    (forall e, In e evC -> exists r x, e = rundown_create r x) /\
    (forall e, In e evU -> exists r x, e = rundown_update r x) /\
    (forall proj, filtered_fields proj -> forall rs,
       In rs (proj pd3) <->
       In rs (proj (pending0 cs)) /\ covered (fst rs) (emitChanges p a c ar ic cs) = false).
Proof.
  set (toIngest := fun ar0 =>
         playlistRundownToIngestRundown p (pr_rundownId ar0) (pr_segments ar0) c ar
           (pr_backTime ar0)).
  assert (Hid : forall ar0, ig_externalId (toIngest ar0) = pr_rundownId ar0)
    by reflexivity.
  assert (HinjC : forall r r' x y, rundown_create r x = rundown_create r' y -> r = r')
    by (intros r r' x y H; inversion H; reflexivity).
  assert (HinjU : forall r r' x y, rundown_update r x = rundown_update r' y -> r = r')
    by (intros r r' x y H; inversion H; reflexivity).
  destruct (emitDeletedRundowns_spec (deletedRundownsOf cs) (pending0 cs)) as [D1 D2].
  destruct (emitDeletedRundowns (deletedRundownsOf cs) (pending0 cs)) as [evDel pd1] eqn:ED.
  simpl in D1, D2.
  destruct (emitRundownChanges_spec rundown_create toIngest a HinjC Hid
              (createdRundownsOf cs) pd1) as [C1 [C2 C3]].
  destruct (emitRundownChanges rundown_create toIngest a (createdRundownsOf cs) pd1)
    as [evC pd2] eqn:EC.
  simpl in C1, C2, C3.
  destruct (emitRundownChanges_spec rundown_update toIngest a HinjU Hid
              (updatedRundownsOf cs) pd2) as [U1 [U2 U3]].
  destruct (emitRundownChanges rundown_update toIngest a (updatedRundownsOf cs) pd2)
    as [evU pd3] eqn:EU.
  simpl in U1, U2, U3.
  assert (Eemit : emitChanges p a c ar ic cs =
      evDel ++ map (fun c0 => segment_delete (fst c0) (snd c0)) (pd_deleted pd1) ++
      evC ++ evU ++
      emitSegments segment_update c ar ic (pd_changed pd3) ++
      emitSegments segment_create c ar ic (pd_created pd3) ++
      map (fun kv => segment_ranks_update (fst kv) (snd kv))
          (collectUpdatedRanks ar ic (pd_moved pd3))).
  { unfold emitChanges. rewrite ED. fold toIngest. rewrite EC, EU. reflexivity. }
  exists evDel, (map (fun c0 => segment_delete (fst c0) (snd c0)) (pd_deleted pd1)),
    evC, evU, pd3.
  split; [exact Eemit|].
  split; [intros e He; rewrite D1 in He; apply in_map_iff in He as [r [He _]];
          exists r; symmetry; exact He|].
  split; [intros e He; apply in_map_iff in He as [c0 [He _]];
          exists (fst c0), (snd c0); symmetry; exact He|].
  split; [exact C1|].
  split; [exact U1|].
  intros proj Hp rs.
  assert (Hcov : forall r, covered r (emitChanges p a c ar ic cs) = false <->
             ~ In r (deletedRundownsOf cs) /\
             ~ (exists x, In (rundown_create r x) evC) /\
             ~ (exists x, In (rundown_update r x) evU)).
  { intros r. rewrite covered_false_iff, Eemit.
    rewrite <- (level_false_iff_not_in r rundown_create evC (fun r' x => eq_refl) C1).
    rewrite <- (level_false_iff_not_in r rundown_update evU (fun r' x => eq_refl) U1).
    split.
    - intros H. split; [|split].
      + intros Hin. specialize (H (rundown_delete r)).
        simpl in H. rewrite String.eqb_refl in H. discriminate H.
        apply in_app_iff; left; rewrite D1; apply in_map; exact Hin.
      + intros e He; apply H. rewrite !in_app_iff; tauto.
      + intros e He; apply H. rewrite !in_app_iff; tauto.
    - intros [H1 [H2 H3]] e He. rewrite !in_app_iff in He.
      destruct He as [He|[He|[He|[He|[He|[He|He]]]]]].
      + rewrite D1 in He. apply in_map_iff in He as [r' [He Hin]]; subst e. simpl.
        apply String.eqb_neq. intros Er; subst r'; exact (H1 Hin).
      + apply in_map_iff in He as [c0 [He _]]; subst e; reflexivity.
      + exact (H2 e He).
      + exact (H3 e He).
      + apply In_emitSegments in He as [r' [s' [i [_ [_ He]]]]]; subst e; reflexivity.
      + apply In_emitSegments in He as [r' [s' [i [_ [_ He]]]]]; subst e; reflexivity.
      + apply in_map_iff in He as [kv [He _]]; subst e; reflexivity. }
  rewrite Hcov, (U3 proj Hp rs), (C3 proj Hp rs), (D2 proj (or_introl Hp) rs).
  tauto.
Qed.

Lemma In_movedSegmentsOf (cs : list PlaylistChange) (r s : string) :
  In (r, s) (movedSegmentsOf cs) <-> In (PlaylistChangeSegmentMoved r s) cs.
Proof.
  unfold movedSegmentsOf. rewrite In_filter_some_map. split.
  - intros [x [Hx E]]; destruct x; try discriminate; inversion E; subst; exact Hx.
  - intros H; eexists; split; [exact H|reflexivity].
Qed.

Lemma In_changedSegmentsOf (cs : list PlaylistChange) (r s : string) :
  In (r, s) (changedSegmentsOf cs) <-> In (PlaylistChangeSegmentChanged r s) cs.
Proof.
  unfold changedSegmentsOf. rewrite In_filter_some_map. split.
  - intros [x [Hx E]]; destruct x; try discriminate; inversion E; subst; exact Hx.
  - intros H; eexists; split; [exact H|reflexivity].
Qed.

Lemma In_createdSegmentsOf (cs : list PlaylistChange) (r s : string) :
  In (r, s) (createdSegmentsOf cs) <-> In (PlaylistChangeSegmentCreated r s) cs.
Proof.
  unfold createdSegmentsOf. rewrite In_filter_some_map. split.
  - intros [x [Hx E]]; destruct x; try discriminate; inversion E; subst; exact Hx.
  - intros H; eexists; split; [exact H|reflexivity].
Qed.

Lemma poll_events_emitted (env : Env) (q : string) (st : Watcher) :
  po_events (checkINewsRundownById env q st) = [] \/
  exists p a c ar ic cs,
    po_events (checkINewsRundownById env q st) = emitChanges p a c ar ic cs.
Proof.
  unfold checkINewsRundownById.
  destruct (downloadRundown env q) as [rd|]; [|left; reflexivity].
  destruct (String.eqb _ _); [|left; reflexivity]. simpl.
  unfold processUpdatedRundown.
  destruct (fetchINewsStoriesById _ _ _); [|left; reflexivity].
  destruct (segmentCacheRequests _ _ _) as [skip reqs].
  destruct (all_some _); [|left; reflexivity].
  destruct (applyRankResults _ _ _) as [[lf ar] pr].
  right. do 6 eexists. reflexivity.
Qed.

Lemma sorted_block (i : nat) (l rest : list Event) :
  (forall e, In e l -> event_order e = i) ->
  StronglySorted (fun x y => (event_order x <= event_order y)%nat) rest ->
  (forall y, In y rest -> (i <= event_order y)%nat) ->
  StronglySorted (fun x y => (event_order x <= event_order y)%nat) (l ++ rest) /\
  (forall y, In y (l ++ rest) -> (i <= event_order y)%nat).
Proof.
  intros Hl Hrest Hge. split.
  - induction l as [|x l' IH]; simpl; [exact Hrest|].
    constructor.
    + apply IH. intros e He; apply Hl; right; exact He.
    + apply Forall_forall. intros y Hy. rewrite (Hl x (or_introl eq_refl)).
      apply in_app_iff in Hy as [Hy|Hy].
      * rewrite (Hl y (or_intror Hy)); apply le_n.
      * exact (Hge y Hy).
  - intros y Hy. apply in_app_iff in Hy as [Hy|Hy].
    + rewrite (Hl y Hy); apply le_n.
    + exact (Hge y Hy).
Qed.

Lemma sorted_split {A} (R : A -> A -> Prop) (l1 l2 l3 : list A) (e1 e2 : A) :
  StronglySorted R (l1 ++ e1 :: l2 ++ e2 :: l3) -> R e1 e2.
Proof.
  induction l1 as [|x rest IH]; simpl; intros H.
  - apply StronglySorted_inv in H as [_ H].
    rewrite Forall_forall in H. apply H. apply in_app_iff; right; left; reflexivity.
  - apply StronglySorted_inv in H as [H _]. exact (IH H).
Qed.

Lemma emitChanges_sorted (p : string) (a : ResolvedPlaylist)
  (c : JSMap.t UnrankedSegment) (ar : JSMap.t Q) (ic : JSMap.t RundownSegment)
  (cs : list PlaylistChange) :
  StronglySorted (fun x y => (event_order x <= event_order y)%nat) (emitChanges p a c ar ic cs).
Proof.
  destruct (emitChanges_shape p a c ar ic cs)
    as [evDel [evSegDel [evC [evU [pd3 [E [HD [HSD [HC [HU _]]]]]]]]]].
  rewrite E.
  assert (B6 := sorted_block 6
    (map (fun kv => segment_ranks_update (fst kv) (snd kv)) (collectUpdatedRanks ar ic (pd_moved pd3)))
    [] ltac:(intros e He; apply in_map_iff in He as [kv [He _]]; subst e; reflexivity)
    (SSorted_nil _) ltac:(intros y [])).
  rewrite app_nil_r in B6. destruct B6 as [S6 G6].
  assert (B5 := sorted_block 5 (emitSegments segment_create c ar ic (pd_created pd3)) _
    ltac:(intros e He; apply In_emitSegments in He as [r [s [i [_ [_ He]]]]]; subst e; reflexivity)
    S6 ltac:(intros y Hy; specialize (G6 y Hy); apply le_S_n; apply le_S; exact G6)).
  destruct B5 as [S5 G5].
  assert (B4 := sorted_block 4 (emitSegments segment_update c ar ic (pd_changed pd3)) _
    ltac:(intros e He; apply In_emitSegments in He as [r [s [i [_ [_ He]]]]]; subst e; reflexivity)
    S5 ltac:(intros y Hy; specialize (G5 y Hy); apply le_S_n; apply le_S; exact G5)).
  destruct B4 as [S4 G4].
  assert (B3 := sorted_block 3 evU _
    ltac:(intros e He; destruct (HU e He) as [r [x Ex]]; subst e; reflexivity)
    S4 ltac:(intros y Hy; specialize (G4 y Hy); apply le_S_n; apply le_S; exact G4)).
  destruct B3 as [S3 G3].
  assert (B2 := sorted_block 2 evC _
    ltac:(intros e He; destruct (HC e He) as [r [x Ex]]; subst e; reflexivity)
    S3 ltac:(intros y Hy; specialize (G3 y Hy); apply le_S_n; apply le_S; exact G3)).
  destruct B2 as [S2 G2].
  assert (B1 := sorted_block 1 evSegDel _
    ltac:(intros e He; destruct (HSD e He) as [r [s Ex]]; subst e; reflexivity)
    S2 ltac:(intros y Hy; specialize (G2 y Hy); apply le_S_n; apply le_S; exact G2)).
  destruct B1 as [S1 G1].
  assert (B0 := sorted_block 0 evDel _
    ltac:(intros e He; destruct (HD e He) as [r Ex]; subst e; reflexivity)
    S1 ltac:(intros y Hy; apply le_0_n)).
  exact (proj1 B0).
Qed.

(** [C2] Within the poll of one queue the events come in the order
    [rundown_delete], [segment_delete], [rundown_create], [rundown_update],
    [segment_update], [segment_create], [segment_ranks_update]: an event
    emitted before another never has a later kind in that order. *)
Theorem poll_events_in_order (env : Env) (q : string) (st : Watcher) :
  forall l1 e1 l2 e2 l3,
  po_events (checkINewsRundownById env q st) = l1 ++ e1 :: l2 ++ e2 :: l3 ->
  (event_order e1 <= event_order e2)%nat.
Proof.
  intros l1 e1 l2 e2 l3 E.
  destruct (poll_events_emitted env q st) as [H|[p [a [c [ar [ic [cs H]]]]]]]; rewrite H in E.
  - destruct l1; discriminate.
  - apply (sorted_split (fun x y => (event_order x <= event_order y)%nat) l1 l2 l3).
    rewrite <- E. apply emitChanges_sorted.
Qed.

Lemma covered_false_not_upserted (r : string) (evs : list Event) :
  covered r evs = false ->
  ~ exists x, In (rundown_create r x) evs \/ In (rundown_update r x) evs.
Proof.
  rewrite covered_false_iff. intros H [x [Hx|Hx]]; specialize (H _ Hx);
    simpl in H; rewrite String.eqb_refl in H; discriminate.
Qed.

Lemma emitChanges_segment_events_remaining (p : string) (a : ResolvedPlaylist)
  (c : JSMap.t UnrankedSegment) (ar : JSMap.t Q) (ic : JSMap.t RundownSegment)
  (cs : list PlaylistChange) (r : string) (e : Event) :
  In e (emitChanges p a c ar ic cs) -> segment_event_rundown e = Some r ->
  covered r (emitChanges p a c ar ic cs) = false.
Proof.
  destruct (emitChanges_shape p a c ar ic cs)
    as [evDel [evSegDel [evC [evU [pd3 [E [HD [HSD [HC [HU Hpd]]]]]]]]]].
  intros He Hr. rewrite E in He. rewrite !in_app_iff in He.
  destruct He as [He|[He|[He|[He|[He|[He|He]]]]]].
  - destruct (HD e He) as [r' Ex]; subst e; discriminate.
  - destruct (HSD e He) as [r' [s Ex]]; subst e; discriminate.
  - destruct (HC e He) as [r' [x Ex]]; subst e; discriminate.
  - destruct (HU e He) as [r' [x Ex]]; subst e; discriminate.
  - apply In_emitSegments in He as [r' [s [i [Hin [_ Ex]]]]]; subst e.
    inversion Hr; subst r'.
    exact (proj2 (proj1 (Hpd pd_changed (or_introl eq_refl) (r, s)) Hin)).
  - apply In_emitSegments in He as [r' [s [i [Hin [_ Ex]]]]]; subst e.
    inversion Hr; subst r'.
    exact (proj2 (proj1 (Hpd pd_created (or_intror (or_introl eq_refl)) (r, s)) Hin)).
  - apply in_map_iff in He as [[r' payload] [Ex Hin]]; subst e.
    inversion Hr; subst r'.
    destruct (collectUpdatedRanks_spec ar ic (pd_moved pd3)) as [Hnd [_ Hdom]].
    assert (Hget := get_In_NoDup _ _ _ Hnd Hin).
    destruct (proj1 (Hdom r) ltac:(rewrite Hget; discriminate)) as [s Hs].
    exact (proj2 (proj1 (Hpd pd_moved (or_intror (or_intror eq_refl)) (r, s)) Hs)).
Qed.

(** [C3] In the poll of one queue, a [segment_update], [segment_create] or
    [segment_ranks_update] event for rundown [r] is emitted only when [r]
    receives no [rundown_create] and no [rundown_update] event in that poll. *)
Theorem segment_events_skip_upserted_rundowns (env : Env) (q : string) (st : Watcher) :
  forall r e,
  In e (po_events (checkINewsRundownById env q st)) ->
  segment_event_rundown e = Some r ->
  ~ exists x, In (rundown_create r x) (po_events (checkINewsRundownById env q st)) \/
              In (rundown_update r x) (po_events (checkINewsRundownById env q st)).
Proof.
  intros r e He Hr.
  destruct (poll_events_emitted env q st) as [H|[p [a [c [ar [ic [cs H]]]]]]];
    rewrite H in *; [destruct He|].
  apply covered_false_not_upserted.
  exact (emitChanges_segment_events_remaining p a c ar ic cs r e He Hr).
Qed.

Lemma filter_some_app {A} (l1 l2 : list (option A)) :
  filter_some (l1 ++ l2) = filter_some l1 ++ filter_some l2.
Proof.
  induction l1 as [|[x|] rest IH]; simpl; [reflexivity| rewrite IH; reflexivity | exact IH].
Qed.

Lemma ranks_update_rundowns_none (l : list Event) :
  (forall e, In e l -> forall r x, e <> segment_ranks_update r x) ->
  ranks_update_rundowns l = [].
Proof.
  unfold ranks_update_rundowns.
  induction l as [|e rest IH]; intros H; simpl; [reflexivity|].
  destruct e; try (apply IH; intros e' He'; apply H; right; exact He').
  exfalso. exact (H _ (or_introl eq_refl) _ _ eq_refl).
Qed.

Lemma ranks_update_rundowns_app (l1 l2 : list Event) :
  ranks_update_rundowns (l1 ++ l2) = ranks_update_rundowns l1 ++ ranks_update_rundowns l2.
Proof. unfold ranks_update_rundowns. rewrite map_app. apply filter_some_app. Qed.

Lemma ranks_update_rundowns_map (m : JSMap.t (JSMap.t Q)) :
  ranks_update_rundowns (map (fun kv => segment_ranks_update (fst kv) (snd kv)) m) = map fst m.
Proof.
  unfold ranks_update_rundowns. induction m as [|kv rest IH]; simpl; [reflexivity|].
  rewrite IH; reflexivity.
Qed.

Lemma get_In {V} (k : string) (v : V) (m : JSMap.t V) :
  JSMap.get k m = Some v -> In (k, v) m.
Proof.
  induction m as [|[k0 v0] rest IH]; simpl; [discriminate|].
  destruct (String.eqb k k0) eqn:E.
  - apply String.eqb_eq in E; subst. intros H; inversion H; subst; left; reflexivity.
  - intros H; right; exact (IH H).
Qed.

Lemma emitChanges_ranks (p : string) (a : ResolvedPlaylist)
  (c : JSMap.t UnrankedSegment) (ar : JSMap.t Q) (ic : JSMap.t RundownSegment)
  (cs : list PlaylistChange) :
  let evs := emitChanges p a c ar ic cs in
  exists m,
    ranks_update_rundowns evs = map fst m /\
    (forall r payload, In (segment_ranks_update r payload) evs <-> In (r, payload) m) /\
    updatedRanks_inv (segmentRank ar ic) m
      (filter (fun rs => negb (covered (fst rs) evs)) (movedSegmentsOf cs)).
Proof.
  intros evs.
  destruct (emitChanges_shape p a c ar ic cs)
    as [evDel [evSegDel [evC [evU [pd3 [E [HD [HSD [HC [HU Hpd]]]]]]]]]].
  fold evs in E, Hpd.
  exists (collectUpdatedRanks ar ic (pd_moved pd3)).
  assert (Hinv := collectUpdatedRanks_spec ar ic (pd_moved pd3)).
  assert (Hset : forall rs, In rs (pd_moved pd3) <->
                 In rs (filter (fun rs => negb (covered (fst rs) evs)) (movedSegmentsOf cs))).
  { intros rs. rewrite (Hpd pd_moved (or_intror (or_intror eq_refl)) rs), filter_In.
    simpl. rewrite negb_true_iff. tauto. }
  split; [|split].
  - rewrite E, !ranks_update_rundowns_app, ranks_update_rundowns_map.
    rewrite !(ranks_update_rundowns_none evDel), !(ranks_update_rundowns_none evSegDel),
      !(ranks_update_rundowns_none evC), !(ranks_update_rundowns_none evU),
      !(ranks_update_rundowns_none (emitSegments segment_update c ar ic (pd_changed pd3))),
      !(ranks_update_rundowns_none (emitSegments segment_create c ar ic (pd_created pd3)));
      try reflexivity.
    + intros e He r x Ex; apply In_emitSegments in He as [r' [s [i [_ [_ He]]]]]; congruence.
    + intros e He r x Ex; apply In_emitSegments in He as [r' [s [i [_ [_ He]]]]]; congruence.
    + intros e He r x Ex; destruct (HU e He) as [r' [y Ey]]; congruence.
    + intros e He r x Ex; destruct (HC e He) as [r' [y Ey]]; congruence.
    + intros e He r x Ex; destruct (HSD e He) as [r' [s Ey]]; congruence.
    + intros e He r x Ex; destruct (HD e He) as [r' Ey]; congruence.
  - intros r payload. rewrite E, !in_app_iff. split.
    + intros [He|[He|[He|[He|[He|[He|He]]]]]].
      * destruct (HD _ He) as [r' Ex]; discriminate.
      * destruct (HSD _ He) as [r' [s Ex]]; discriminate.
      * destruct (HC _ He) as [r' [x Ex]]; discriminate.
      * destruct (HU _ He) as [r' [x Ex]]; discriminate.
      * apply In_emitSegments in He as [r' [s [i [_ [_ He]]]]]; discriminate.
      * apply In_emitSegments in He as [r' [s [i [_ [_ He]]]]]; discriminate.
      * apply in_map_iff in He as [[r' p'] [Ex Hin]]. inversion Ex; subst. exact Hin.
    + intros Hin. right; right; right; right; right; right.
      apply in_map_iff. exists (r, payload). split; [reflexivity|exact Hin].
  - destruct Hinv as [Hnd [Hpay Hdom]]. split; [exact Hnd|split].
    + intros r payload Hget s q. rewrite (Hpay r payload Hget s q), Hset. reflexivity.
    + intros r. rewrite Hdom. split; intros [s Hs]; exists s; apply Hset; exact Hs.
Qed.

(** The [segment_ranks_update] events of an emission. *)
Lemma emitChanges_ranks_coalesced (p : string) (a : ResolvedPlaylist)
  (c : JSMap.t UnrankedSegment) (ar : JSMap.t Q) (ic : JSMap.t RundownSegment)
  (cs : list PlaylistChange) :
  let evs := emitChanges p a c ar ic cs in
  NoDup (ranks_update_rundowns evs) /\
  (forall r payload, In (segment_ranks_update r payload) evs ->
     forall s q, JSMap.get s payload = Some q <->
       In (PlaylistChangeSegmentMoved r s) cs /\ covered r evs = false /\
       q = segmentRank ar ic s) /\
  (forall r s, In (PlaylistChangeSegmentMoved r s) cs -> covered r evs = false ->
     exists payload, In (segment_ranks_update r payload) evs).
Proof.
  intros evs.
  destruct (emitChanges_ranks p a c ar ic cs) as [m [Hrund [Hin [Hnd [Hpay Hdom]]]]].
  fold evs in Hrund, Hin, Hpay, Hdom.
  split; [|split].
  - rewrite Hrund. exact Hnd.
  - intros r payload Hev s q.
    apply Hin in Hev. rewrite (Hpay r payload (get_In_NoDup _ _ _ Hnd Hev) s q).
    rewrite filter_In, In_movedSegmentsOf. simpl. rewrite negb_true_iff. tauto.
  - intros r s Hmv Hcov.
    destruct (JSMap.get r m) as [payload|] eqn:Eg.
    + exists payload. apply Hin. apply get_In; exact Eg.
    + exfalso. apply (proj2 (Hdom r)); [|exact Eg].
      exists s. apply filter_In. rewrite In_movedSegmentsOf. simpl. rewrite Hcov. tauto.
Qed.

(** [C6] (as the code does it) In one emission, at most one
    [segment_ranks_update] is emitted per rundown; the one for rundown [r]
    maps exactly the segments [s] with a [SegmentMoved] change in [r] that
    is not covered by a rundown-level event of [r] (delete, create or
    update), each to the rank the Rank Assigner gave it or, where it gave
    none, to its Core-cached rank or else 0; and every such rundown gets
    one. *)
Theorem ranks_update_coalesced (p : string) (a : ResolvedPlaylist)
  (c : JSMap.t UnrankedSegment) (ar : JSMap.t Q) (ic : JSMap.t RundownSegment)
  (cs : list PlaylistChange) :
  let evs := emitChanges p a c ar ic cs in
  NoDup (ranks_update_rundowns evs) /\
  (forall r payload, In (segment_ranks_update r payload) evs ->
     forall s q, JSMap.get s payload = Some q <->
       In (PlaylistChangeSegmentMoved r s) cs /\ covered r evs = false /\
       q = segmentRank ar ic s) /\
  (forall r s, In (PlaylistChangeSegmentMoved r s) cs -> covered r evs = false ->
     exists payload, In (segment_ranks_update r payload) evs).
Proof. exact (emitChanges_ranks_coalesced p a c ar ic cs). Qed.

(** ** Polling and status *)

Lemma checkINewsRundownById_ok (env : Env) (q : string) (st : Watcher) :
  po_ok (checkINewsRundownById env q st) =
  match downloadRundown env q with Some _ => true | None => false end.
Proof.
  unfold checkINewsRundownById.
  destruct (downloadRundown env q) as [rd|]; [destruct (String.eqb _ _)|]; reflexivity.
Qed.

Lemma checkINewsRundowns_ok (env : Env) (qs : list string) :
  forall st, po_ok (checkINewsRundowns env qs st) = false <->
             exists q, In q qs /\ downloadRundown env q = None.
Proof.
  induction qs as [|q0 rest IH]; intros st; simpl.
  - split; [discriminate|intros [q [[] _]]].
  - assert (Hok := checkINewsRundownById_ok env q0 st).
    destruct (downloadRundown env q0) as [rd|] eqn:Hd.
    + rewrite Hok. simpl. rewrite IH. split.
      * intros [q [Hq Hn]]. exists q. split; [right; exact Hq|exact Hn].
      * intros [q [[<-|Hq] Hn]]; [congruence|]. exists q. split; [exact Hq|exact Hn].
    + rewrite Hok. split; [intros _; exists q0; split; [left; reflexivity|exact Hd]|intros _; exact Hok].
Qed.

Lemma checkINewsRundowns_skip (env : Env) (q : string)
  (Hskip : forall st, checkINewsRundownById env q st = mkPollOutcome st [] true [] []) :
  forall qs1 qs2 st,
  checkINewsRundowns env (qs1 ++ q :: qs2) st = checkINewsRundowns env (qs1 ++ qs2) st.
Proof.
  intros qs1 qs2. induction qs1 as [|q0 rest IH]; intros st; simpl.
  - rewrite Hskip. simpl. destruct (checkINewsRundowns env qs2 st); reflexivity.
  - destruct (po_ok (checkINewsRundownById env q0 st)); [|reflexivity].
    rewrite IH. reflexivity.
Qed.

(** [C1] (as the code does it) When the listing downloaded for queue [q]
    has a [gatewayVersion] other than the gateway's, the poll of [q] emits
    no event, makes no call, leaves the whole watcher state as it was and
    resolves; in a cycle, such a queue is as if it were not configured.
    For a cycle over [q] alone, [watch] then sends [GOOD] when the Core
    handler is connected and sends no status otherwise. *)
Theorem version_mismatch_ignored (env : Env) (st : Watcher) (q : string)
  (rd : ReducedRundown)
  (Hdl : downloadRundown env q = Some rd)
  (Hver : rr_gatewayVersion rd <> gatewayVersion env) :
  checkINewsRundownById env q st = mkPollOutcome st [] true [] [] /\
  (forall qs1 qs2 st0,
     checkINewsRundowns env (qs1 ++ q :: qs2) st0 = checkINewsRundowns env (qs1 ++ qs2) st0) /\
  (iNewsQueue env = [q] ->
     watch env st = (mkPollOutcome st [] true [] [],
                     if handler_isConnected env then Some GOOD else None)).
Proof.
  assert (Hskip : forall st0, checkINewsRundownById env q st0 = mkPollOutcome st0 [] true [] []).
  { intros st0. unfold checkINewsRundownById. rewrite Hdl.
    destruct (String.eqb (rr_gatewayVersion rd) (gatewayVersion env)) eqn:E; [|reflexivity].
    apply String.eqb_eq in E. contradiction. }
  split; [apply Hskip|split; [apply checkINewsRundowns_skip; exact Hskip|]].
  intros Hq. unfold watch. rewrite Hq. simpl. rewrite Hskip. reflexivity.
Qed.

(** [C9] (as the code does it) A cycle rejects exactly when
    [downloadRundown] rejects for one of the configured queues (errors of
    [processUpdatedRundown] are caught and logged). [watch] sends
    [WARNING_MAJOR] exactly when the cycle rejects; when it resolves it
    sends [GOOD] if the Core handler is connected and no status
    otherwise. *)
Theorem watch_status (env : Env) (st : Watcher) :
  let o := fst (watch env st) in
  let status := snd (watch env st) in
  (po_ok o = false <-> exists q, In q (iNewsQueue env) /\ downloadRundown env q = None) /\
  (status = Some WARNING_MAJOR <-> po_ok o = false) /\
  (status = Some GOOD <-> po_ok o = true /\ handler_isConnected env = true) /\
  (status = None <-> po_ok o = true /\ handler_isConnected env = false).
Proof.
  intros o status. subst o status. unfold watch. simpl.
  split; [apply checkINewsRundowns_ok|].
  destruct (po_ok (checkINewsRundowns env (iNewsQueue env) st));
    destruct (handler_isConnected env);
    repeat split; try reflexivity; try discriminate; intros [H1 H2]; discriminate.
Qed.

(** * Counterexamples and witnesses *)

(** [C1] The listing of ["Q"] has version ["v0"], the gateway ["v1"]; the
    Core handler is not connected: the cycle reports no status at all, in
    particular not [GOOD]. *)
Lemma version_mismatch_status_counterexample :
  let env := sample_env false true (sample_listing "v0" []) [] (mkDiffResult [] []) [] in
  (exists rd, downloadRundown env "Q" = Some rd /\ rr_gatewayVersion rd <> gatewayVersion env) /\
  checkINewsRundownById env "Q" empty_watcher = mkPollOutcome empty_watcher [] true [] [] /\
  snd (watch env empty_watcher) = None.
Proof.
  split; [|split; vm_compute; reflexivity].
  eexists. split; [reflexivity|]. vm_compute. discriminate.
Qed.

Lemma version_mismatch_ignored_witness :
  let env := sample_env true true (sample_listing "v0" []) [] (mkDiffResult [] []) [] in
  watch env empty_watcher = (mkPollOutcome empty_watcher [] true [] [], Some GOOD).
Proof.
  intros env.
  exact (proj2 (proj2 (version_mismatch_ignored env empty_watcher "Q"
           (sample_listing "v0" []) eq_refl ltac:(vm_compute; discriminate))) eq_refl).
Defined.

(** [C9] Two cycles over queue ["Q"], whose listing has the gateway's
    version and one segment ["A"]. With the Core handler disconnected, the
    cycle completes and no status is sent (not [GOOD]). With the handler
    connected and the story fetch rejecting, [processUpdatedRundown] fails
    but the error is caught, and [GOOD] is sent (not [WARNING_MAJOR]). *)
Lemma watch_status_counterexample :
  let listing := sample_listing "v1" [sample_segment "A" "L"] in
  let env1 := sample_env false true listing [] (mkDiffResult [] []) [] in
  let env2 := sample_env true false listing [] (mkDiffResult [] []) [] in
  (po_ok (fst (watch env1 empty_watcher)) = true /\ snd (watch env1 empty_watcher) = None) /\
  (po_ok (processUpdatedRundown env2 "Q" listing empty_watcher) = false /\
   snd (watch env2 empty_watcher) = Some GOOD).
Proof. vm_compute. repeat split. Qed.

(** [C5] ["A"] is cached in [cachedINewsData] with locator ["L1"] and is
    listed with locator ["L2"]; the playlist is not in [playlists]. The
    poll fetches no story. *)
Lemma stale_segments_fetched_counterexample :
  let env := sample_env true true (sample_listing "v1" [sample_segment "A" "L2"]) []
               (mkDiffResult [] []) [] in
  let st := {| previousRanks := []; lastForcedRankRecalculation := [];
               cachedINewsData := [("A", sample_unranked "Q_1" "A" "L1")];
               cachedPlaylistAssignments := []; cachedAssignedRundowns := [];
               skipCacheForRundown := []; playlists := []; rundowns := [];
               segments := [] |} in
  (exists c, JSMap.get "A" (cachedINewsData st) = Some c /\ us_locator c <> "L2") /\
  po_fetches (checkINewsRundownById env "Q" st) = [("Q", [])].
Proof.
  split; [|vm_compute; reflexivity].
  eexists. split; [reflexivity|]. vm_compute. discriminate.
Qed.

(** [C6] [DiffPlaylist] reports ["A"] moved in ["Q_1"] and the Rank
    Assigner assigns no rank: the rank update of ["Q_1"] still maps ["A"],
    to 0, a rank nobody assigned. *)
Lemma ranks_update_coalesced_counterexample :
  let env := sample_env true true (sample_listing "v1" [sample_segment "A" "L"]) []
               (mkDiffResult [PlaylistChangeSegmentMoved "Q_1" "A"] []) [] in
  po_events (checkINewsRundownById env "Q" empty_watcher) =
    [segment_ranks_update "Q_1" [("A", 0%Q)]].
Proof. vm_compute. reflexivity. Qed.

(** [C7] The failing input. ["A"] is created in the new rundown ["Q_1"]
    and the Rank Assigner gives it no rank: the [rundown_create] of ["Q_1"]
    carries no segment and no other event of the poll carries ["A"]. On the
    same input with ["Q_1"] not created, the loop over the created
    segments emits ["A"] with the fallback rank 0. *)
Lemma rankless_segment_dropped :
  let env := sample_env true true (sample_listing "v1" [sample_segment "A" "L"])
               [mkResolvedRundown "Q_1" ["A"] None]
               (mkDiffResult [PlaylistChangeRundownCreated "Q_1";
                              PlaylistChangeSegmentCreated "Q_1" "A"] []) [] in
  let env' := sample_env true true (sample_listing "v1" [sample_segment "A" "L"])
               [mkResolvedRundown "Q_1" ["A"] None]
               (mkDiffResult [PlaylistChangeSegmentCreated "Q_1" "A"] []) [] in
  po_ok (checkINewsRundownById env "Q" empty_watcher) = true /\
  po_events (checkINewsRundownById env "Q" empty_watcher) =
    [rundown_create "Q_1" (mkIngestRundown "Q_1" "Q" [] "Q" None)] /\
  existsb (event_carries_segment "A")
    (po_events (checkINewsRundownById env "Q" empty_watcher)) = false /\
  po_events (checkINewsRundownById env' "Q" empty_watcher) =
    [segment_create "Q_1" "A"
       (inewsToIngestSegment "Q_1" "A" (sample_unranked "Q" "A" "L") 0%Q)].
Proof. vm_compute. repeat split. Qed.

Lemma resync_missing_is_noop_witness :
  ResyncRundown "Q_3" sample_resync_state = sample_resync_state.
Proof.
  apply (resync_missing_is_noop "Q_3" sample_resync_state).
  right. vm_compute. reflexivity.
Defined.

Lemma resync_invalidates_and_skips_witness :
  JSSet.has "Q_1" (skipCacheForRundown (ResyncRundown "Q_1" sample_resync_state)) = true.
Proof.
  pose proof (resync_invalidates_and_skips
                (sample_env true true (sample_listing "v1" []) [] (mkDiffResult [] []) [])
                sample_resync_state "Q_1" ["Q_1"; "Q_2"] ["A"]
                ltac:(vm_compute; reflexivity) ltac:(vm_compute; reflexivity)) as H.
  cbv zeta in H. destruct H as (_ & _ & _ & _ & _ & _ & H & _). exact H.
Defined.

Lemma resolver_empty_single_rundown_witness :
  let env := sample_env true true (sample_listing "v1" [sample_segment "A" "L"]) []
               (mkDiffResult [] []) [] in
  JSMap.get "Q" (playlists (po_state (processUpdatedRundown env "Q"
                   (sample_listing "v1" [sample_segment "A" "L"]) empty_watcher))) = Some ["Q_1"].
Proof.
  intros env.
  exact (proj1 (proj2 (proj2 (resolver_empty_single_rundown env "Q"
           (sample_listing "v1" [sample_segment "A" "L"]) empty_watcher
           (fun _ => eq_refl) (fun _ => ltac:(discriminate)) (fun _ _ => ltac:(discriminate)))))).
Defined.

(** A poll of ["Q"] that deletes rundown ["Q_9"] and moves ["A"] in ["Q_1"]. *)
Definition sample_order_env : Env :=
  sample_env true true (sample_listing "v1" [sample_segment "A" "L"]) []
    (mkDiffResult [PlaylistChangeRundownDeleted "Q_9"; PlaylistChangeSegmentMoved "Q_1" "A"] []) [].

Lemma poll_events_in_order_witness :
  po_events (checkINewsRundownById sample_order_env "Q" empty_watcher) =
    [] ++ rundown_delete "Q_9" :: [] ++ segment_ranks_update "Q_1" [("A", 0%Q)] :: [] /\
  (event_order (rundown_delete "Q_9") <= event_order (segment_ranks_update "Q_1" [("A", 0%Q)]))%nat.
Proof.
  assert (E : po_events (checkINewsRundownById sample_order_env "Q" empty_watcher) =
    [] ++ rundown_delete "Q_9" :: [] ++ segment_ranks_update "Q_1" [("A", 0%Q)] :: [])
    by (vm_compute; reflexivity).
  split; [exact E|].
  exact (poll_events_in_order sample_order_env "Q" empty_watcher [] _ [] _ [] E).
Defined.

Lemma segment_events_skip_upserted_rundowns_witness :
  In (segment_ranks_update "Q_1" [("A", 0%Q)])
     (po_events (checkINewsRundownById sample_order_env "Q" empty_watcher)) /\
  ~ exists x, In (rundown_create "Q_1" x) (po_events (checkINewsRundownById sample_order_env "Q" empty_watcher)) \/
              In (rundown_update "Q_1" x) (po_events (checkINewsRundownById sample_order_env "Q" empty_watcher)).
Proof.
  assert (Hin : In (segment_ranks_update "Q_1" [("A", 0%Q)])
                   (po_events (checkINewsRundownById sample_order_env "Q" empty_watcher)))
    by (vm_compute; right; left; reflexivity).
  split; [exact Hin|].
  exact (segment_events_skip_upserted_rundowns sample_order_env "Q" empty_watcher "Q_1" _ Hin eq_refl).
Defined.

(** * Further properties of the watcher *)

(** ** Rundown ids and [ResyncRundown] *)

Lemma list_ascii_of_string_app (s1 s2 : string) :
  list_ascii_of_string (s1 ++ s2) = list_ascii_of_string s1 ++ list_ascii_of_string s2.
Proof. induction s1 as [|c s1 IH]; simpl; [reflexivity|rewrite IH; reflexivity]. Qed.

Lemma strip_digits_app (l rest : list Ascii.ascii) (seen : bool) :
  l <> [] -> forallb is_digit l = true ->
  strip_digits_underscore (l ++ rest) seen = strip_digits_underscore rest true.
Proof.
  revert seen. induction l as [|x l IH]; intros seen Hne Hd; [contradiction|].
  simpl in Hd |- *. apply andb_true_iff in Hd as [Hx Hl]. rewrite Hx.
  destruct l as [|y l']; [reflexivity|].
  apply IH; [discriminate|exact Hl].
Qed.

Lemma forallb_rev {A} (f : A -> bool) (l : list A) :
  forallb f (rev l) = forallb f l.
Proof.
  induction l as [|x l IH]; simpl; [reflexivity|].
  rewrite forallb_app, IH. simpl. rewrite andb_true_r, andb_comm. reflexivity.
Qed.

(** The rundown id [p_n] ([n] a non-empty run of digits) that the watcher
    gives the rundowns of playlist [p] is mapped back to [p] by the
    [/_\d+$/] replacement of [ResyncRundown], whatever [p] is (it may
    itself contain [_] or end in [_<digits>]). *)
Theorem replace_rundown_suffix_numbered (p d : string)
  (Hd : is_digit_string d = true) :
  replace_rundown_suffix (p ++ "_" ++ d) = p.
Proof.
  unfold is_digit_string in Hd. apply andb_true_iff in Hd as [Hne Hdig].
  unfold replace_rundown_suffix.
  rewrite !list_ascii_of_string_app. simpl (list_ascii_of_string "_").
  replace (rev (list_ascii_of_string p ++ ["_"%char] ++ list_ascii_of_string d))
    with (rev (list_ascii_of_string d) ++ "_"%char :: rev (list_ascii_of_string p))
    by (rewrite rev_app_distr; simpl; rewrite <- app_assoc; reflexivity).
  rewrite strip_digits_app.
  - simpl. rewrite rev_involutive. apply string_of_list_ascii_of_string.
  - destruct d as [|a d]; [discriminate|simpl]. intros H.
    apply app_eq_nil in H as [_ H]. discriminate.
  - rewrite forallb_rev. exact Hdig.
Qed.

Lemma resync_delete_fold_other (l : list string)
  (acc : JSMap.t ReducedSegment * JSMap.t UnrankedSegment) (s : string) :
  ~ In s l ->
  JSMap.get s (fst (fold_left (fun '(segs, inews) segmentId =>
                     (JSMap.delete segmentId segs, JSMap.delete segmentId inews)) l acc)) =
    JSMap.get s (fst acc) /\
  JSMap.get s (snd (fold_left (fun '(segs, inews) segmentId =>
                     (JSMap.delete segmentId segs, JSMap.delete segmentId inews)) l acc)) =
    JSMap.get s (snd acc).
Proof.
  revert acc. induction l as [|x rest IH]; intros [segs inews] Hs; simpl in *; [split; reflexivity|].
  rewrite (proj1 (IH _ (fun H => Hs (or_intror H)))), (proj2 (IH _ (fun H => Hs (or_intror H)))).
  simpl. rewrite !get_delete.
  destruct (String.eqb s x) eqn:E; [|split; reflexivity].
  apply String.eqb_eq in E; subst; tauto.
Qed.

(** [ResyncRundown rid] touches nothing outside [rid]: [previousRanks] and
    [cachedAssignedRundowns] are kept as they are, and so are the
    [rundowns], [lastForcedRankRecalculation] and skip flags of the other
    rundowns, the [playlists] and [cachedPlaylistAssignments] entries of
    the other playlists, and the [segments] and [cachedINewsData] entries
    of segments not listed for [rid]. *)
Theorem resync_frame (rid : string) (st : Watcher) :
  let st' := ResyncRundown rid st in
  previousRanks st' = previousRanks st /\
  cachedAssignedRundowns st' = cachedAssignedRundowns st /\
  (forall r, r <> rid ->
     JSMap.get r (rundowns st') = JSMap.get r (rundowns st) /\
     JSMap.get r (lastForcedRankRecalculation st') = JSMap.get r (lastForcedRankRecalculation st) /\
     JSSet.has r (skipCacheForRundown st') = JSSet.has r (skipCacheForRundown st)) /\
  (forall p, p <> replace_rundown_suffix rid ->
     JSMap.get p (playlists st') = JSMap.get p (playlists st) /\
     JSMap.get p (cachedPlaylistAssignments st') = JSMap.get p (cachedPlaylistAssignments st)) /\
  (forall s, (forall segs, JSMap.get rid (rundowns st) = Some segs -> ~ In s segs) ->
     JSMap.get s (segments st') = JSMap.get s (segments st) /\
     JSMap.get s (cachedINewsData st') = JSMap.get s (cachedINewsData st)).
Proof.
  intros st'. subst st'. unfold ResyncRundown.
  destruct (JSMap.get (replace_rundown_suffix rid) (playlists st)) as [playlist|] eqn:Hpl;
    [|repeat split; intros; tauto].
  destruct (JSMap.get rid (rundowns st)) as [rundown|] eqn:Hrd;
    [|repeat split; intros; tauto].
  destruct (fold_left _ rundown (segments st, cachedINewsData st)) as [segs inews] eqn:Ef.
  simpl. split; [reflexivity|split; [reflexivity|split; [|split]]].
  - intros r Hr. assert (E : String.eqb r rid = false) by (apply String.eqb_neq; exact Hr).
    rewrite !get_delete, has_add, E. repeat split.
  - intros p Hp. assert (E : String.eqb p (replace_rundown_suffix rid) = false)
      by (apply String.eqb_neq; exact Hp).
    rewrite get_set, E. split; [reflexivity|].
    destruct (JSMap.get (replace_rundown_suffix rid) (cachedPlaylistAssignments st));
      [rewrite get_set, E|]; reflexivity.
  - intros s Hs. specialize (Hs rundown eq_refl).
    destruct (resync_delete_fold_other rundown (segments st, cachedINewsData st) s Hs) as [H1 H2].
    rewrite Ef in H1, H2. split; [exact H1|exact H2].
Qed.

Lemma resync_rundown_missing (rid : string) (st : Watcher) :
  JSMap.get rid (rundowns st) = None -> ResyncRundown rid st = st.
Proof.
  intros H. unfold ResyncRundown. rewrite H.
  destruct (JSMap.get (replace_rundown_suffix rid) (playlists st)); reflexivity.
Qed.

(** Resyncing the same rundown twice in a row is the same as resyncing it
    once: the second call finds [rid] gone from [rundowns] and returns. *)
Theorem resync_idempotent (rid : string) (st : Watcher) :
  ResyncRundown rid (ResyncRundown rid st) = ResyncRundown rid st.
Proof.
  destruct (JSMap.get (replace_rundown_suffix rid) (playlists st)) as [playlist|] eqn:Hpl.
  - destruct (JSMap.get rid (rundowns st)) as [rundown|] eqn:Hrd.
    + apply resync_rundown_missing.
      unfold ResyncRundown. rewrite Hpl, Hrd.
      destruct (fold_left _ _ _) as [segs inews]. simpl.
      rewrite get_delete, String.eqb_refl. reflexivity.
    + rewrite (resync_rundown_missing rid st Hrd). apply resync_rundown_missing; exact Hrd.
  - assert (E : ResyncRundown rid st = st) by (unfold ResyncRundown; rewrite Hpl; reflexivity).
    rewrite E. exact E.
Qed.

(** ** Story fetching and Core cache requests *)

Lemma NoDup_snoc (x : string) (l : list string) :
  NoDup l -> ~ In x l -> NoDup (l ++ [x]).
Proof.
  induction l as [|y l IH]; intros Hnd Hx; simpl.
  - constructor; [intros []|constructor].
  - inversion Hnd as [|y' l' Hy Hl]; subst. constructor.
    + rewrite in_app_iff. intros [H|[H|[]]]; [exact (Hy H)|subst; apply Hx; left; reflexivity].
    + apply IH; [exact Hl|intros H; apply Hx; right; exact H].
Qed.

Lemma NoDup_add (x : string) (u : JSSet.t) : NoDup u -> NoDup (JSSet.add x u).
Proof.
  intros Hnd. unfold JSSet.add. destruct (JSSet.has x u) eqn:E; [exact Hnd|].
  apply NoDup_snoc; [exact Hnd|]. intros H. apply has_In in H. congruence.
Qed.

Lemma NoDup_fold_add {A} (keep : A -> bool) (key : A -> string) (l : list A) :
  forall u, NoDup u ->
  NoDup (fold_left (fun u x => if keep x then u else JSSet.add (key x) u) l u).
Proof.
  induction l as [|x rest IH]; intros u Hnd; simpl; [exact Hnd|].
  apply IH. destruct (keep x); [exact Hnd|apply NoDup_add; exact Hnd].
Qed.

(** The ids a poll asks [fetchINewsStoriesById] for are listed segment ids,
    each asked for once. *)
Theorem story_fetch_ids_distinct (st : Watcher) (p : string) (pl : ReducedRundown) :
  NoDup (uncachedINewsData st p pl) /\
  (forall s, In s (uncachedINewsData st p pl) -> In s (map rs_externalId (rr_segments pl))).
Proof.
  split.
  - unfold uncachedINewsData.
    assert (H0 := NoDup_fold_add (fun x => JSMap.has (rs_externalId x) (cachedINewsData st))
                    rs_externalId (rr_segments pl) [] (NoDup_nil _)).
    destruct (JSMap.get p (playlists st)); [|exact H0].
    rewrite (fold_left_ext _ (fun u x => if negb (stale_in_segments st x) then u
                                         else JSSet.add (rs_externalId x) u)).
    + apply NoDup_fold_add. exact H0.
    + intros u x. unfold stale_in_segments.
      destruct (JSMap.get (rs_externalId x) (segments st)); [|reflexivity].
      destruct (String.eqb _ _); reflexivity.
  - intros s Hs. apply uncached_spec in Hs as [seg [Hseg [Hk _]]].
    apply in_map_iff. exists seg. split; [exact Hk|exact Hseg].
Qed.

(** When [fetchINewsStoriesById] rejects, the poll of the queue still
    resolves (the error of [processUpdatedRundown] is caught), emits no
    event, asks Core for nothing and leaves the whole watcher state as it
    was. *)
Theorem story_fetch_rejection_keeps_state (env : Env) (q : string) (st : Watcher)
  (rd : ReducedRundown)
  (Hdl : downloadRundown env q = Some rd)
  (Hver : rr_gatewayVersion rd = gatewayVersion env)
  (Hf : fetchINewsStoriesById env (rr_externalId rd)
          (uncachedINewsData st (rr_externalId rd) rd) = None) :
  checkINewsRundownById env q st =
    mkPollOutcome st [] true [(rr_externalId rd, uncachedINewsData st (rr_externalId rd) rd)] [].
Proof.
  unfold checkINewsRundownById. rewrite Hdl, Hver, String.eqb_refl.
  unfold processUpdatedRundown. rewrite Hf. reflexivity.
Qed.

Lemma all_some_none {A B} (f : A -> option B) (l : list A) :
  (exists x, In x l /\ f x = None) -> all_some (map f l) = None.
Proof.
  induction l as [|x rest IH]; intros [y [Hy Hn]]; [destruct Hy|].
  simpl. destruct Hy as [<-|Hy]; [rewrite Hn; reflexivity|].
  destruct (f x); [|reflexivity]. rewrite IH; [reflexivity|exists y; tauto].
Qed.

(** When one of the [GetSegmentsCacheById] calls rejects, the poll emits
    nothing and changes no cache except two: the fetched stories stay in
    [cachedINewsData], and the skip flags consumed by the loop over the
    resolved rundowns stay consumed. *)
Theorem core_cache_rejection_partial (env : Env) (p : string) (pl : ReducedRundown)
  (st : Watcher) (m : JSMap.t UnrankedSegment)
  (Hf : fetchINewsStoriesById env p (uncachedINewsData st p pl) = Some m)
  (Hc : exists req,
     In req (snd (segmentCacheRequests (uncachedINewsData st p pl) (skipCacheForRundown st)
                    (withDefaultRundown p (ResolveRundownIntoPlaylist env p
                       (segmentsToResolve (storeEntries m (cachedINewsData st)) pl))))) /\
     GetSegmentsCacheById env (fst req) (snd req) = None) :
  let o := processUpdatedRundown env p pl st in
  po_ok o = false /\ po_events o = [] /\
  po_state o =
    {| previousRanks := previousRanks st;
       lastForcedRankRecalculation := lastForcedRankRecalculation st;
       cachedINewsData := storeEntries m (cachedINewsData st);
       cachedPlaylistAssignments := cachedPlaylistAssignments st;
       cachedAssignedRundowns := cachedAssignedRundowns st;
       skipCacheForRundown :=
         fst (segmentCacheRequests (uncachedINewsData st p pl) (skipCacheForRundown st)
                (withDefaultRundown p (ResolveRundownIntoPlaylist env p
                   (segmentsToResolve (storeEntries m (cachedINewsData st)) pl))));
       playlists := playlists st;
       rundowns := rundowns st;
       segments := segments st |}.
Proof.
  intros o. subst o. unfold processUpdatedRundown. rewrite Hf.
  destruct (segmentCacheRequests _ _ _) as [skip reqs]. simpl in Hc |- *.
  rewrite (all_some_none (fun req => GetSegmentsCacheById env (fst req) (snd req)) reqs Hc).
  repeat split.
Qed.

(** The loop over the resolved rundowns, for rundown ids without
    duplicates: every rundown not flagged in [skipCacheForRundown] gets one
    [GetSegmentsCacheById] call, in order, for its segments among the ids
    sent to [fetchINewsStoriesById]; the flagged ones get none, and exactly
    their flags are removed. *)
Theorem core_cache_requests (u skip : JSSet.t) (a : ResolvedPlaylist)
  (Hnd : NoDup (map pr_rundownId a)) :
  snd (segmentCacheRequests u skip a) =
    map (fun r => (pr_rundownId r, filter (fun s => JSSet.has s u) (pr_segments r)))
        (filter (fun r => negb (JSSet.has (pr_rundownId r) skip)) a) /\
  (forall x, JSSet.has x (fst (segmentCacheRequests u skip a)) =
             JSSet.has x skip && negb (existsb (String.eqb x) (map pr_rundownId a))).
Proof.
  revert skip. induction a as [|r rest IH]; intros skip; simpl.
  - split; [reflexivity|intros x; rewrite andb_true_r; reflexivity].
  - inversion Hnd as [|y l Hr Hnd']; subst. specialize (IH Hnd').
    destruct (JSSet.has (pr_rundownId r) skip) eqn:Hh; simpl.
    + destruct (IH (JSSet.delete (pr_rundownId r) skip)) as [H1 H2]. split.
      * rewrite H1. f_equal. apply filter_ext_in. intros r' Hr'.
        rewrite has_delete. destruct (String.eqb (pr_rundownId r') (pr_rundownId r)) eqn:E; [|reflexivity].
        apply String.eqb_eq in E. exfalso. apply Hr. rewrite <- E. apply in_map; exact Hr'.
      * intros x. rewrite H2, has_delete.
        destruct (String.eqb x (pr_rundownId r)) eqn:E; simpl; [|reflexivity].
        apply String.eqb_eq in E; subst. rewrite Hh. reflexivity.
    + destruct (IH skip) as [H1 H2].
      destruct (segmentCacheRequests u skip rest) as [skip' reqs]; simpl in *. split.
      * rewrite H1. reflexivity.
      * intros x. rewrite H2.
        destruct (String.eqb x (pr_rundownId r)) eqn:E; simpl; [|reflexivity].
        apply String.eqb_eq in E; subst. rewrite Hh. reflexivity.
Qed.

(** ** Caches after a poll *)

Lemma withDefaultRundown_nonempty (p : string) (a : ResolvedPlaylist) :
  withDefaultRundown p a <> [].
Proof. destruct a; discriminate. Qed.

Lemma fold_set_spec {A V} (key : A -> string) (val : A -> V) (l : list A) :
  forall (m : JSMap.t V) k,
  (In k (map key l) -> exists x, In x l /\ key x = k /\
     JSMap.get k (fold_left (fun m x => JSMap.set (key x) (val x) m) l m) = Some (val x)) /\
  (~ In k (map key l) ->
     JSMap.get k (fold_left (fun m x => JSMap.set (key x) (val x) m) l m) = JSMap.get k m).
Proof.
  induction l as [|x rest IH]; intros m k; simpl.
  - split; [intros []|reflexivity].
  - destruct (IH (JSMap.set (key x) (val x) m) k) as [H1 H2]. split.
    + intros Hk. destruct (in_dec String.string_dec k (map key rest)) as [Hin|Hnin].
      * destruct (H1 Hin) as [y Hy]. exists y. tauto.
      * destruct Hk as [Hk|Hk]; [|contradiction].
        exists x. rewrite (H2 Hnin), Hk, get_set_same. tauto.
    + intros Hk. rewrite (H2 (fun H => Hk (or_intror H))), get_set.
      destruct (String.eqb k (key x)) eqn:E; [|reflexivity].
      apply String.eqb_eq in E. exfalso; apply Hk; left; symmetry; exact E.
Qed.

(** After a successful poll of playlist [p], the watcher records a
    non-empty list of rundowns for [p], the same in [playlists] as in
    [cachedPlaylistAssignments]; each of these rundowns has its segment
    list in [rundowns], and each listed segment is in [segments] (the last
    listing entry with its id). *)
Theorem successful_poll_records_playlist (env : Env) (p : string) (pl : ReducedRundown)
  (st : Watcher)
  (Hok : po_ok (processUpdatedRundown env p pl st) = true) :
  let st' := po_state (processUpdatedRundown env p pl st) in
  exists a, a <> [] /\
    JSMap.get p (cachedPlaylistAssignments st') = Some a /\
    JSMap.get p (playlists st') = Some (map pr_rundownId a) /\
    (forall r, In r (map pr_rundownId a) ->
       exists ar, In ar a /\ pr_rundownId ar = r /\
                  JSMap.get r (rundowns st') = Some (pr_segments ar)) /\
    (forall seg, In seg (rr_segments pl) ->
       exists seg', In seg' (rr_segments pl) /\ rs_externalId seg' = rs_externalId seg /\
                    JSMap.get (rs_externalId seg) (segments st') = Some seg').
Proof.
  intros st'. subst st'. revert Hok. unfold processUpdatedRundown.
  destruct (fetchINewsStoriesById _ _ _) as [m|]; [|discriminate].
  destruct (segmentCacheRequests _ _ _) as [skip reqs].
  destruct (all_some _); [|discriminate].
  destruct (applyRankResults _ _ _) as [[lf ar] pr]. intros _. simpl.
  eexists. split; [apply withDefaultRundown_nonempty|].
  split; [apply get_set_same|split; [apply get_set_same|split]].
  - intros r Hr. exact (proj1 (fold_set_spec pr_rundownId pr_segments _ _ r) Hr).
  - intros seg Hseg.
    exact (proj1 (fold_set_spec rs_externalId (fun s => s) _ _ (rs_externalId seg))
                 (in_map _ _ _ Hseg)).
Qed.

Lemma keeps_refl {V} (m : JSMap.t V) : keeps_keys m m.
Proof. intros k H; exact H. Qed.

Lemma keeps_trans {V} (m1 m2 m3 : JSMap.t V) :
  keeps_keys m1 m2 -> keeps_keys m2 m3 -> keeps_keys m1 m3.
Proof. intros H1 H2 k H; apply H2, H1, H. Qed.

Lemma keeps_set {V} (k : string) (v : V) (m : JSMap.t V) : keeps_keys m (JSMap.set k v m).
Proof.
  intros k' H. rewrite get_set. destruct (String.eqb k' k); [discriminate|exact H].
Qed.

Lemma keeps_fold {V B} (f : JSMap.t V -> B -> JSMap.t V) :
  (forall m x, keeps_keys m (f m x)) -> forall l m, keeps_keys m (fold_left f l m).
Proof.
  intros Hf l. induction l as [|x rest IH]; intros m; simpl; [apply keeps_refl|].
  eapply keeps_trans; [apply Hf|apply IH].
Qed.

Lemma keeps_storeEntries {V} (entries m : JSMap.t V) : keeps_keys m (storeEntries entries m).
Proof. apply keeps_fold. intros m0 x; apply keeps_set. Qed.

Lemma applyRankResults_keeps (now : Z) (rs : list RankResult) :
  forall lf ar prev,
  keeps_keys lf (fst (fst (applyRankResults now rs (lf, ar, prev)))) /\
  keeps_keys prev (snd (applyRankResults now rs (lf, ar, prev))).
Proof.
  unfold applyRankResults.
  induction rs as [|R rest IH]; intros lf ar prev; simpl; [split; apply keeps_refl|].
  match goal with |- context [fold_left _ rest (?a, ?b, ?c)] =>
    destruct (IH a b c) as [H1 H2] end.
  split; (eapply keeps_trans; [|eassumption]).
  - destruct (rk_recalculatedAsIntegers R); [apply keeps_set|apply keeps_refl].
  - apply keeps_set.
Qed.

Lemma applyRankResults_keeps_eq (now : Z) (rs : list RankResult) lf ar prev lf' ar' pr' :
  applyRankResults now rs (lf, ar, prev) = (lf', ar', pr') ->
  keeps_keys lf lf' /\ keeps_keys prev pr'.
Proof.
  intros E. pose proof (applyRankResults_keeps now rs lf ar prev) as H.
  rewrite E in H. exact H.
Qed.

Lemma segmentCacheRequests_skip_sub (u : JSSet.t) (a : ResolvedPlaylist) :
  forall skip x, JSSet.has x (fst (segmentCacheRequests u skip a)) = true ->
                 JSSet.has x skip = true.
Proof.
  induction a as [|r rest IH]; intros skip x; simpl; [tauto|].
  destruct (JSSet.has (pr_rundownId r) skip).
  - intros H. apply IH in H. rewrite has_delete in H. apply andb_true_iff in H; tauto.
  - destruct (segmentCacheRequests u skip rest) as [skip' reqs] eqn:E. simpl.
    intros H. apply (IH skip x). rewrite E. exact H.
Qed.

Lemma caches_kept_refl (st : Watcher) : caches_kept st st.
Proof. repeat split; try apply keeps_refl; tauto. Qed.

Lemma caches_kept_trans (st1 st2 st3 : Watcher) :
  caches_kept st1 st2 -> caches_kept st2 st3 -> caches_kept st1 st3.
Proof.
  intros (A1 & B1 & C1 & D1 & E1 & F1 & G1 & H1 & I1) (A2 & B2 & C2 & D2 & E2 & F2 & G2 & H2 & I2).
  repeat split; try (eapply keeps_trans; eassumption).
  intros x H; apply I1, I2, H.
Qed.

Lemma process_caches_kept (env : Env) (p : string) (pl : ReducedRundown) (st : Watcher) :
  caches_kept st (po_state (processUpdatedRundown env p pl st)).
Proof.
  unfold processUpdatedRundown.
  cbv zeta.
  destruct (fetchINewsStoriesById _ _ _) as [m|]; [|apply caches_kept_refl].
  match goal with |- context [segmentCacheRequests ?u ?sk ?a] =>
    assert (Hskip := segmentCacheRequests_skip_sub u a sk);
    destruct (segmentCacheRequests u sk a) as [skip reqs] end.
  simpl in Hskip.
  destruct (all_some _).
  - destruct (applyRankResults _ _ _) as [[lf' ar'] pr'] eqn:Ear.
    destruct (applyRankResults_keeps_eq _ _ _ _ _ _ _ _ Ear) as [Hlf Hpr].
    repeat split; simpl; try exact Hlf; try exact Hpr; try apply keeps_set;
      try apply keeps_storeEntries; try exact Hskip.
    + apply keeps_fold. intros m0 x; apply keeps_set.
    + apply keeps_fold. intros m0 x; apply keeps_set.
  - repeat split; simpl; try apply keeps_refl; try apply keeps_storeEntries; exact Hskip.
Qed.

Lemma checkINewsRundownById_caches_kept (env : Env) (q : string) (st : Watcher) :
  caches_kept st (po_state (checkINewsRundownById env q st)).
Proof.
  unfold checkINewsRundownById.
  destruct (downloadRundown env q); [|apply caches_kept_refl].
  destruct (String.eqb _ _); [apply process_caches_kept|apply caches_kept_refl].
Qed.

(** A poll cycle never removes an entry from any cache of the watcher
    ([previousRanks], [lastForcedRankRecalculation], [cachedINewsData],
    [cachedPlaylistAssignments], [cachedAssignedRundowns], [playlists],
    [rundowns], [segments]), whether it succeeds or fails, and never arms
    a skip flag: entries of stories, segments or rundowns that disappeared
    from the NRCS stay cached. *)
Theorem poll_cycle_keeps_cache_keys (env : Env) (qs : list string) (st : Watcher) :
  caches_kept st (po_state (checkINewsRundowns env qs st)).
Proof.
  revert st. induction qs as [|q rest IH]; intros st; simpl; [apply caches_kept_refl|].
  destruct (po_ok (checkINewsRundownById env q st)); simpl;
    [|apply checkINewsRundownById_caches_kept].
  eapply caches_kept_trans; [apply checkINewsRundownById_caches_kept|apply IH].
Qed.

(** ** Witnesses of the properties above *)

Lemma replace_rundown_suffix_numbered_witness :
  replace_rundown_suffix ("Q_x" ++ "_" ++ "12") = "Q_x".
Proof. apply (replace_rundown_suffix_numbered "Q_x" "12"). reflexivity. Defined.

Lemma story_fetch_rejection_keeps_state_witness :
  checkINewsRundownById
    (sample_env true false (sample_listing "v1" [sample_segment "A" "L"]) []
                (mkDiffResult [] []) [])
    "Q" empty_watcher =
  mkPollOutcome empty_watcher [] true [("Q", ["A"])] [].
Proof.
  exact (story_fetch_rejection_keeps_state
           (sample_env true false (sample_listing "v1" [sample_segment "A" "L"]) []
                       (mkDiffResult [] []) [])
           "Q" empty_watcher (sample_listing "v1" [sample_segment "A" "L"])
           eq_refl eq_refl eq_refl).
Defined.

Lemma core_cache_rejection_partial_witness :
  let env := sample_env_core_down (sample_listing "v1" [sample_segment "A" "L"]) in
  let o := processUpdatedRundown env "Q" (sample_listing "v1" [sample_segment "A" "L"])
             empty_watcher in
  po_ok o = false /\ po_events o = [] /\
  cachedINewsData (po_state o) = [("A", sample_unranked "Q" "A" "L")].
Proof.
  intros env o.
  assert (Hc : exists req,
     In req (snd (segmentCacheRequests
                    (uncachedINewsData empty_watcher "Q" (sample_listing "v1" [sample_segment "A" "L"]))
                    (skipCacheForRundown empty_watcher)
                    (withDefaultRundown "Q" (ResolveRundownIntoPlaylist env "Q"
                       (segmentsToResolve
                          (storeEntries [("A", sample_unranked "Q" "A" "L")]
                                        (cachedINewsData empty_watcher))
                          (sample_listing "v1" [sample_segment "A" "L"])))))) /\
     GetSegmentsCacheById env (fst req) (snd req) = None).
  { exists ("Q_1", []). split; [vm_compute; left; reflexivity|reflexivity]. }
  pose proof (core_cache_rejection_partial env "Q" (sample_listing "v1" [sample_segment "A" "L"])
                empty_watcher [("A", sample_unranked "Q" "A" "L")] eq_refl Hc) as H.
  cbv zeta in H. destruct H as [H1 [H2 H3]].
  split; [exact H1|split; [exact H2|]]. subst o. rewrite H3. reflexivity.
Defined.

Lemma core_cache_requests_witness :
  snd (segmentCacheRequests ["A"; "C"] ["Q_2"]
         [mkResolvedRundown "Q_1" ["A"; "B"] None; mkResolvedRundown "Q_2" ["C"] None]) =
  [("Q_1", ["A"])].
Proof.
  rewrite (proj1 (core_cache_requests ["A"; "C"] ["Q_2"]
                    [mkResolvedRundown "Q_1" ["A"; "B"] None; mkResolvedRundown "Q_2" ["C"] None]
                    ltac:(repeat constructor; simpl; intuition congruence))).
  reflexivity.
Defined.

Lemma successful_poll_records_playlist_witness :
  exists a, a <> [] /\
    JSMap.get "Q" (cachedPlaylistAssignments
      (po_state (processUpdatedRundown
         (sample_env true true (sample_listing "v1" [sample_segment "A" "L"]) []
                     (mkDiffResult [] []) [])
         "Q" (sample_listing "v1" [sample_segment "A" "L"]) empty_watcher))) = Some a.
Proof.
  pose proof (successful_poll_records_playlist
                (sample_env true true (sample_listing "v1" [sample_segment "A" "L"]) []
                            (mkDiffResult [] []) [])
                "Q" (sample_listing "v1" [sample_segment "A" "L"]) empty_watcher
                ltac:(vm_compute; reflexivity)) as H.
  cbv zeta in H. destruct H as [a [H1 [H2 _]]]. exists a. split; assumption.
Defined.

(** ** Ingest data built from the caches *)

(** [playlistRundownToIngestRundown] keeps, in order, exactly the segments
    that have both iNews data and a rank (a rank of 0 is kept: only
    [undefined] drops a segment), and builds each of them with
    [inewsToIngestSegment] from that data and that rank. *)
Theorem ingest_rundown_segments (playlistId rundownId : string) (segs : list string)
  (c : JSMap.t UnrankedSegment) (ranks : JSMap.t Q) (backTime : option string) :
  let ig := playlistRundownToIngestRundown playlistId rundownId segs c ranks backTime in
  map is_externalId (ig_segments ig) =
    filter (fun s => JSMap.has s c && JSMap.has s ranks) segs /\
  (forall seg, In seg (ig_segments ig) ->
     exists inews rank,
       JSMap.get (is_externalId seg) c = Some inews /\
       JSMap.get (is_externalId seg) ranks = Some rank /\
       seg = inewsToIngestSegment rundownId (is_externalId seg) inews rank).
Proof.
  cbv zeta. unfold playlistRundownToIngestRundown. cbn [ig_segments]. split.
  - induction segs as [|s rest IH]; simpl; [reflexivity|]. unfold JSMap.has at 1 2.
    destruct (JSMap.get s c), (JSMap.get s ranks); simpl; rewrite ?IH; reflexivity.
  - intros seg Hseg. apply In_filter_some_map in Hseg as [s [_ E]].
    destruct (JSMap.get s c) as [u|] eqn:E1, (JSMap.get s ranks) as [q|] eqn:E2;
      try discriminate.
    injection E as <-. exists u, q.
    split; [exact E1|split; [exact E2|reflexivity]].
Qed.

(** The rundowns handed to [DiffPlaylist] follow the resolved rundowns one
    for one, with the same ids in the same order; each keeps, in order, the
    segments of its resolved rundown that have iNews data, all with rank 0
    and its own rundown id. *)
Theorem assigned_rundowns_for_diff (env : Env) (c : JSMap.t UnrankedSegment)
  (a : ResolvedPlaylist) :
  map ir_externalId (assignedRundownsOf env c a) = map pr_rundownId a /\
  (forall pr, In pr a ->
     exists ir, In ir (assignedRundownsOf env c a) /\
       ir_externalId ir = pr_rundownId pr /\
       ir_gatewayVersion ir = gatewayVersion env /\
       map sg_externalId (ir_segments ir) = filter (fun s => JSMap.has s c) (pr_segments pr) /\
       (forall sg, In sg (ir_segments ir) ->
          sg_rank sg = 0%Q /\ sg_rundownId sg = pr_rundownId pr)).
Proof.
  unfold assignedRundownsOf. split.
  - rewrite map_map. reflexivity.
  - intros pr Hpr. eexists. split; [apply in_map; exact Hpr|]. simpl.
    split; [reflexivity|split; [reflexivity|split]].
    + induction (pr_segments pr) as [|s rest IH]; simpl; [reflexivity|].
      unfold JSMap.has at 1. destruct (JSMap.get s c); simpl; rewrite ?IH; reflexivity.
    + intros sg Hsg. apply In_filter_some_map in Hsg as [s [_ E]].
      destruct (JSMap.get s c); [|discriminate]. injection E as <-.
      split; reflexivity.
Qed.

(** ** Events of a poll and the changes of [DiffPlaylist] *)

Lemma In_deletedRundownsOf (cs : list PlaylistChange) (r : string) :
  In r (deletedRundownsOf cs) <-> In (PlaylistChangeRundownDeleted r) cs.
Proof.
  unfold deletedRundownsOf. rewrite In_filter_some_map. split.
  - intros [x [Hx E]]; destruct x; try discriminate; inversion E; subst; exact Hx.
  - intros H; eexists; split; [exact H|reflexivity].
Qed.

Lemma In_createdRundownsOf (cs : list PlaylistChange) (r : string) :
  In r (createdRundownsOf cs) <-> In (PlaylistChangeRundownCreated r) cs.
Proof.
  unfold createdRundownsOf. rewrite In_filter_some_map. split.
  - intros [x [Hx E]]; destruct x; try discriminate; inversion E; subst; exact Hx.
  - intros H; eexists; split; [exact H|reflexivity].
Qed.

Lemma In_updatedRundownsOf (cs : list PlaylistChange) (r : string) :
  In r (updatedRundownsOf cs) <-> In (PlaylistChangeRundownUpdated r) cs.
Proof.
  unfold updatedRundownsOf. rewrite In_filter_some_map. split.
  - intros [x [Hx E]]; destruct x; try discriminate; inversion E; subst; exact Hx.
  - intros H; eexists; split; [exact H|reflexivity].
Qed.

Lemma In_deletedSegmentsOf (cs : list PlaylistChange) (r s : string) :
  In (r, s) (deletedSegmentsOf cs) <-> In (PlaylistChangeSegmentDeleted r s) cs.
Proof.
  unfold deletedSegmentsOf. rewrite In_filter_some_map. split.
  - intros [x [Hx E]]; destruct x; try discriminate; inversion E; subst; exact Hx.
  - intros H; eexists; split; [exact H|reflexivity].
Qed.

Lemma emitRundownChanges_fst (mk : string -> IngestRundown -> Event)
  (toIngest : ResolvedRundown -> IngestRundown) (a : ResolvedPlaylist) (rs : list string) :
  forall pd e,
  In e (fst (emitRundownChanges mk toIngest a rs pd)) <->
  exists r y, In r rs /\ find (fun x => String.eqb (pr_rundownId x) r) a = Some y /\
              e = mk (ig_externalId (toIngest y)) (toIngest y).
Proof.
  induction rs as [|r rest IH]; intros pd e; simpl.
  - split; [intros []|intros (r & y & [] & _)].
  - destruct (find (fun x => String.eqb (pr_rundownId x) r) a) as [y|] eqn:Ef.
    + match goal with |- context [emitRundownChanges mk toIngest a rest ?pd'] =>
        specialize (IH pd' e); destruct (emitRundownChanges mk toIngest a rest pd')
          as [evs pd''] end.
      simpl in *. rewrite IH. split.
      * intros [He|(r' & y' & Hr & Hf & He)].
        -- exists r, y. split; [left; reflexivity|split; [exact Ef|symmetry; exact He]].
        -- exists r', y'. tauto.
      * intros (r' & y' & [Hr|Hr] & Hf & He).
        -- subst r'. rewrite Ef in Hf. injection Hf as <-. left; symmetry; exact He.
        -- right. exists r', y'. tauto.
    + rewrite IH. split.
      * intros (r' & y' & Hr & Hf & He). exists r', y'. tauto.
      * intros (r' & y' & [Hr|Hr] & Hf & He).
        -- subst r'. rewrite Ef in Hf. discriminate.
        -- exists r', y'. tauto.
Qed.

Lemma emitChanges_parts (p : string) (a : ResolvedPlaylist)
  (c : JSMap.t UnrankedSegment) (ar : JSMap.t Q) (ic : JSMap.t RundownSegment)
  (cs : list PlaylistChange) :
  let toIngest := fun ar0 =>
    playlistRundownToIngestRundown p (pr_rundownId ar0) (pr_segments ar0) c ar
      (pr_backTime ar0) in
  exists pd1 pd2 pd3,
    emitChanges p a c ar ic cs =
      map rundown_delete (deletedRundownsOf cs) ++
      map (fun c0 => segment_delete (fst c0) (snd c0)) (pd_deleted pd1) ++
      fst (emitRundownChanges rundown_create toIngest a (createdRundownsOf cs) pd1) ++
      fst (emitRundownChanges rundown_update toIngest a (updatedRundownsOf cs) pd2) ++
      emitSegments segment_update c ar ic (pd_changed pd3) ++
      emitSegments segment_create c ar ic (pd_created pd3) ++
      map (fun kv => segment_ranks_update (fst kv) (snd kv))
          (collectUpdatedRanks ar ic (pd_moved pd3)) /\
    (forall x, In x (pd_deleted pd1) <->
               In x (deletedSegmentsOf cs) /\ ~ In (fst x) (deletedRundownsOf cs)).
Proof.
  intros toIngest.
  destruct (emitDeletedRundowns_spec (deletedRundownsOf cs) (pending0 cs)) as [D1 D2].
  destruct (emitDeletedRundowns (deletedRundownsOf cs) (pending0 cs)) as [evDel pd1] eqn:ED.
  simpl in D1, D2.
  destruct (emitRundownChanges rundown_create toIngest a (createdRundownsOf cs) pd1)
    as [evC pd2] eqn:EC.
  destruct (emitRundownChanges rundown_update toIngest a (updatedRundownsOf cs) pd2)
    as [evU pd3] eqn:EU.
  exists pd1, pd2, pd3. split.
  - unfold emitChanges. rewrite ED. fold toIngest. rewrite EC, EU. cbn [fst].
    rewrite D1. reflexivity.
  - intros x. exact (D2 pd_deleted (or_intror eq_refl) x).
Qed.

Ltac not_this_event H :=
  first
  [ apply in_map_iff in H as [? [H _]]; discriminate H
  | apply emitRundownChanges_fst in H as (? & ? & _ & _ & H); discriminate H
  | apply In_emitSegments in H as (? & ? & ? & _ & _ & H); discriminate H ].

(** A poll emits [segment_delete] for exactly the segment deletions of
    [DiffPlaylist] whose rundown is not deleted in the same poll; unlike
    the other segment events, they are emitted even for a rundown that is
    created or updated in that poll. *)
Theorem segment_delete_events (p : string) (a : ResolvedPlaylist)
  (c : JSMap.t UnrankedSegment) (ar : JSMap.t Q) (ic : JSMap.t RundownSegment)
  (cs : list PlaylistChange) (r s : string) :
  In (segment_delete r s) (emitChanges p a c ar ic cs) <->
  In (PlaylistChangeSegmentDeleted r s) cs /\ ~ In (PlaylistChangeRundownDeleted r) cs.
Proof.
  destruct (emitChanges_parts p a c ar ic cs) as (pd1 & pd2 & pd3 & Heq & Hdel).
  rewrite Heq, !in_app_iff, <- In_deletedSegmentsOf, <- In_deletedRundownsOf. split.
  - intros [H|[H|[H|[H|[H|[H|H]]]]]]; try not_this_event H.
    apply in_map_iff in H as [[r' s'] [E Hin]]. simpl in E. injection E as E1 E2.
    subst. exact (proj1 (Hdel (_, _)) Hin).
  - intros H. right; left. apply in_map_iff. exists (r, s).
    split; [reflexivity|apply Hdel; exact H].
Qed.

(** A poll emits [rundown_delete] for exactly the deleted rundowns of
    [DiffPlaylist]; [rundown_create] (resp. [rundown_update]) for exactly
    the created (resp. updated) rundowns found among the resolved rundowns,
    carrying [playlistRundownToIngestRundown] of the first resolved
    rundown with that id; a created or updated rundown that is not among
    them gets no event. *)
Theorem rundown_events_of_changes (p : string) (a : ResolvedPlaylist)
  (c : JSMap.t UnrankedSegment) (ar : JSMap.t Q) (ic : JSMap.t RundownSegment)
  (cs : list PlaylistChange) (r : string) :
  let evs := emitChanges p a c ar ic cs in
  (In (rundown_delete r) evs <-> In (PlaylistChangeRundownDeleted r) cs) /\
  (forall x, In (rundown_create r x) evs <->
     In (PlaylistChangeRundownCreated r) cs /\
     exists y, find (fun y => String.eqb (pr_rundownId y) r) a = Some y /\
       x = playlistRundownToIngestRundown p r (pr_segments y) c ar (pr_backTime y)) /\
  (forall x, In (rundown_update r x) evs <->
     In (PlaylistChangeRundownUpdated r) cs /\
     exists y, find (fun y => String.eqb (pr_rundownId y) r) a = Some y /\
       x = playlistRundownToIngestRundown p r (pr_segments y) c ar (pr_backTime y)).
Proof.
  intros evs.
  destruct (emitChanges_parts p a c ar ic cs) as (pd1 & pd2 & pd3 & Heq & _).
  subst evs. rewrite Heq. split; [|split; intros x].
  - rewrite !in_app_iff, <- In_deletedRundownsOf. split.
    + intros [H|[H|[H|[H|[H|[H|H]]]]]]; try not_this_event H.
      apply in_map_iff in H as [r' [E Hin]]. injection E as <-. exact Hin.
    + intros H. left. apply in_map. exact H.
  - rewrite !in_app_iff, <- In_createdRundownsOf. split.
    + intros [H|[H|[H|[H|[H|[H|H]]]]]]; try not_this_event H.
      apply emitRundownChanges_fst in H as (r' & y & Hr & Hf & E).
      injection E as E1 E2. simpl in E1.
      pose proof (find_some _ _ Hf) as [_ Hy]. apply String.eqb_eq in Hy.
      subst. split; [exact Hr|]. exists y. split; [exact Hf|reflexivity].
    + intros [Hin [y [Hf ->]]]. right; right; left.
      apply emitRundownChanges_fst. exists r, y.
      split; [exact Hin|split; [exact Hf|]].
      pose proof (find_some _ _ Hf) as [_ Hy]. apply String.eqb_eq in Hy.
      simpl. rewrite Hy. reflexivity.
  - rewrite !in_app_iff, <- In_updatedRundownsOf. split.
    + intros [H|[H|[H|[H|[H|[H|H]]]]]]; try not_this_event H.
      apply emitRundownChanges_fst in H as (r' & y & Hr & Hf & E).
      injection E as E1 E2. simpl in E1.
      pose proof (find_some _ _ Hf) as [_ Hy]. apply String.eqb_eq in Hy.
      subst. split; [exact Hr|]. exists y. split; [exact Hf|reflexivity].
    + intros [Hin [y [Hf ->]]]. right; right; right; left.
      apply emitRundownChanges_fst. exists r, y.
      split; [exact Hin|split; [exact Hf|]].
      pose proof (find_some _ _ Hf) as [_ Hy]. apply String.eqb_eq in Hy.
      simpl. rewrite Hy. reflexivity.
Qed.

(** A poll emits [segment_update] (resp. [segment_create]) for exactly the
    changed (resp. created) segments of [DiffPlaylist] whose rundown gets no
    rundown-level event in the poll and whose iNews data is cached; the
    segment is [inewsToIngestSegment] of that data, with the rank chosen by
    [segmentRank]. A changed or created segment without iNews data is
    dropped. *)
Theorem segment_events_of_changes (p : string) (a : ResolvedPlaylist)
  (c : JSMap.t UnrankedSegment) (ar : JSMap.t Q) (ic : JSMap.t RundownSegment)
  (cs : list PlaylistChange) (r s : string) (seg : IngestSegment) :
  let evs := emitChanges p a c ar ic cs in
  (In (segment_update r s seg) evs <->
     In (PlaylistChangeSegmentChanged r s) cs /\ covered r evs = false /\
     exists inews, JSMap.get s c = Some inews /\
       seg = inewsToIngestSegment r s inews (segmentRank ar ic s)) /\
  (In (segment_create r s seg) evs <->
     In (PlaylistChangeSegmentCreated r s) cs /\ covered r evs = false /\
     exists inews, JSMap.get s c = Some inews /\
       seg = inewsToIngestSegment r s inews (segmentRank ar ic s)).
Proof.
  intros evs.
  destruct (emitChanges_shape p a c ar ic cs)
    as (evDel & evSegDel & evC & evU & pd3 & Heq & HD & HSD & HC & HU & Hpd).
  change (emitChanges p a c ar ic cs) with evs in Heq, Hpd. clearbody evs. subst evs.
  split; split.
  - rewrite !in_app_iff.
    intros [H|[H|[H|[H|[H|[H|H]]]]]];
      [destruct (HD _ H) as [? E]; discriminate E
      |destruct (HSD _ H) as [? [? E]]; discriminate E
      |destruct (HC _ H) as [? [? E]]; discriminate E
      |destruct (HU _ H) as [? [? E]]; discriminate E
      | |not_this_event H|not_this_event H].
    apply In_emitSegments in H as (r' & s' & inews & Hin & Hget & E).
    injection E as E1 E2 E3. subst r' s'.
    apply (Hpd pd_changed (or_introl eq_refl)) in Hin. simpl in Hin.
    rewrite In_changedSegmentsOf in Hin. destruct Hin as [Hin Hcov].
    split; [exact Hin|split; [exact Hcov|]]. exists inews. split; [exact Hget|exact E3].
  - intros (Hin & Hcov & inews & Hget & ->). rewrite !in_app_iff.
    right; right; right; right; left. apply In_emitSegments.
    exists r, s, inews. split; [|split; [exact Hget|reflexivity]].
    apply (Hpd pd_changed (or_introl eq_refl)). simpl.
    rewrite In_changedSegmentsOf. split; assumption.
  - rewrite !in_app_iff.
    intros [H|[H|[H|[H|[H|[H|H]]]]]];
      [destruct (HD _ H) as [? E]; discriminate E
      |destruct (HSD _ H) as [? [? E]]; discriminate E
      |destruct (HC _ H) as [? [? E]]; discriminate E
      |destruct (HU _ H) as [? [? E]]; discriminate E
      |not_this_event H| |not_this_event H].
    apply In_emitSegments in H as (r' & s' & inews & Hin & Hget & E).
    injection E as E1 E2 E3. subst r' s'.
    apply (Hpd pd_created (or_intror (or_introl eq_refl))) in Hin. simpl in Hin.
    rewrite In_createdSegmentsOf in Hin. destruct Hin as [Hin Hcov].
    split; [exact Hin|split; [exact Hcov|]]. exists inews. split; [exact Hget|exact E3].
  - intros (Hin & Hcov & inews & Hget & ->). rewrite !in_app_iff.
    right; right; right; right; right; left. apply In_emitSegments.
    exists r, s, inews. split; [|split; [exact Hget|reflexivity]].
    apply (Hpd pd_created (or_intror (or_introl eq_refl))). simpl.
    rewrite In_createdSegmentsOf. split; assumption.
Qed.

(** ** Rank results of [AssignRanksToSegments] *)

(** For every rundown id [k], after the loop over the rank results:
    [previousRanks] at [k] is the table built by [updatePreviousRanks] from
    the last result for [k] (the whole table is replaced), or the old entry
    when there is no result for [k]; [lastForcedRankRecalculation] at [k] is
    [Date.now()] when some result for [k] was recalculated as integers, and
    the old entry otherwise. *)
Theorem rank_results_applied (now : Z) (rs : list RankResult)
  (lf : JSMap.t Z) (ar : JSMap.t Q) (prev : SegmentRankings) (k : string) :
  JSMap.get k (snd (applyRankResults now rs (lf, ar, prev))) =
    match find (fun R => String.eqb (rk_rundownId R) k) (rev rs) with
    | Some R =>
        Some (fold_left (fun m kv => JSMap.set (fst kv) (mkSegmentRankingsInner (snd kv)) m)
                        (rk_assignedRanks R) [])
    | None => JSMap.get k prev
    end /\
  JSMap.get k (fst (fst (applyRankResults now rs (lf, ar, prev)))) =
    if existsb (fun R => String.eqb (rk_rundownId R) k && rk_recalculatedAsIntegers R) rs
    then Some now else JSMap.get k lf.
Proof.
  unfold applyRankResults.
  induction rs as [|R rs0 IH] using rev_ind; simpl; [split; reflexivity|].
  rewrite fold_left_app, rev_app_distr, existsb_app. simpl.
  destruct IH as [IH1 IH2].
  destruct (fold_left _ rs0 (lf, ar, prev)) as [[lf0 ar0] prev0]. simpl in *.
  unfold updatePreviousRanks. rewrite get_set, (eqb_sym_bool k (rk_rundownId R)).
  split.
  - destruct (String.eqb (rk_rundownId R) k); [reflexivity|exact IH1].
  - destruct (rk_recalculatedAsIntegers R), (String.eqb (rk_rundownId R) k) eqn:E;
      simpl; rewrite ?orb_true_r, ?orb_false_r, ?get_set, ?(eqb_sym_bool k), ?E;
      try reflexivity; exact IH2.
Qed.

(** ** The poll cycle *)

Lemma checkINewsRundowns_app (env : Env) (qs1 qs2 : list string) :
  forall st,
  checkINewsRundowns env (qs1 ++ qs2) st =
    let o1 := checkINewsRundowns env qs1 st in
    if po_ok o1 then
      let o2 := checkINewsRundowns env qs2 (po_state o1) in
      mkPollOutcome (po_state o2) (po_events o1 ++ po_events o2) (po_ok o2)
        (po_fetches o1 ++ po_fetches o2) (po_cacheRequests o1 ++ po_cacheRequests o2)
    else o1.
Proof.
  induction qs1 as [|q rest IH]; intros st; simpl.
  - destruct (checkINewsRundowns env qs2 st); reflexivity.
  - destruct (checkINewsRundownById env q st) as [s0 e0 [|] f0 c0]; simpl; [|reflexivity].
    rewrite IH. simpl.
    destruct (checkINewsRundowns env rest s0) as [s1 e1 [|] f1 c1]; simpl; [|reflexivity].
    rewrite !app_assoc. reflexivity.
Qed.

(** Polling a list of queues in one cycle is polling a first part of it,
    then, if that succeeded, the rest from the state it left: events,
    fetches and Core requests are concatenated, and a failure of the first
    part ends the cycle. *)
Theorem poll_cycle_split (env : Env) (qs1 qs2 : list string) (st : Watcher) :
  checkINewsRundowns env (qs1 ++ qs2) st =
    let o1 := checkINewsRundowns env qs1 st in
    if po_ok o1 then
      let o2 := checkINewsRundowns env qs2 (po_state o1) in
      mkPollOutcome (po_state o2) (po_events o1 ++ po_events o2) (po_ok o2)
        (po_fetches o1 ++ po_fetches o2) (po_cacheRequests o1 ++ po_cacheRequests o2)
    else o1.
Proof. apply checkINewsRundowns_app. Qed.

(** A queue whose download rejects ends the cycle as a failure: the queues
    after it are not polled, and the state, events, fetches and Core
    requests are those of the queues before it. *)
Theorem cycle_stops_at_failed_download (env : Env) (qs1 : list string) (q : string)
  (qs2 : list string) (st : Watcher)
  (Hdl : downloadRundown env q = None) :
  checkINewsRundowns env (qs1 ++ q :: qs2) st =
    let o1 := checkINewsRundowns env qs1 st in
    if po_ok o1 then
      mkPollOutcome (po_state o1) (po_events o1) false (po_fetches o1) (po_cacheRequests o1)
    else o1.
Proof.
  assert (Hq : forall st', checkINewsRundownById env q st' = mkPollOutcome st' [] false [] [])
    by (intros st'; unfold checkINewsRundownById; rewrite Hdl; reflexivity).
  rewrite checkINewsRundowns_app. cbv zeta.
  destruct (checkINewsRundowns env qs1 st) as [s1 e1 [|] f1 c1]; simpl; [|reflexivity].
  rewrite Hq. simpl. rewrite !app_nil_r. reflexivity.
Qed.

Lemma cycle_stops_at_failed_download_witness :
  let env := sample_env true true (sample_listing "v1" [sample_segment "A" "L"]) []
                        (mkDiffResult [] []) [] in
  po_ok (checkINewsRundowns env ["Q"; "R"; "Q"] empty_watcher) = false /\
  po_fetches (checkINewsRundowns env ["Q"; "R"; "Q"] empty_watcher) =
    po_fetches (checkINewsRundowns env ["Q"] empty_watcher).
Proof.
  intros env.
  pose proof (cycle_stops_at_failed_download env ["Q"] "R" ["Q"] empty_watcher eq_refl) as H.
  change (["Q"] ++ "R" :: ["Q"]) with ["Q"; "R"; "Q"] in H.
  rewrite H. vm_compute. split; reflexivity.
Defined.
